(** * LiveTex backend: a shallow embedding of [src/index.ts]

    The server keeps web-socket clients in sync with the [.pdf] files of one
    watched directory.  This development embeds its four pieces

    - [listPdfs]       (the directory scan),
    - [broadcastPdfs]  and the [watch] callback (the change reaction),
    - the [clients] set with its [open] / [close] handlers,
    - the [/api/pdf/:name] route (the file gateway),

    as Rocq functions and proves or refutes what the specification says
    about them.

    The host platform is not part of the repository.  Its functions are
    modelled as follows.
    - [String.prototype.endsWith], [includes] and [path.join] (POSIX) are
      defined below from their ECMAScript / Node.js descriptions.
    - The file system ([readdirSync], [statSync], [Bun.file]) and the
      network ([ws.send]) are environments: records of functions whose
      results may be a thrown exception.
    - [String.prototype.localeCompare] and [decodeURIComponent] are
      parameters of the sections that use them. *)

From Stdlib Require Import List String Ascii ZArith Bool Arith Lia.
From Stdlib Require Import Permutation Sorted.
From Stdlib Require QArith_base.
Import ListNotations.
Open Scope string_scope.

(* ================================================================== *)
(** * JavaScript strings *)
(* ================================================================== *)

Module JsString.

(** [s.endsWith(t)]: with [start = s.length - t.length], false when
    [start < 0], otherwise whether the [t.length] code units of [s] from
    [start] are [t]. *)
Definition endsWith (s t : string) : bool :=
  (length t <=? length s)%nat
  && (substring (length s - length t) (length t) s =? t).

(** [s.includes(t)]: whether [t] occurs in [s] at some index, tried from
    index 0 upwards. *)
Fixpoint includes (s t : string) : bool :=
  prefix t s
  || match s with
     | EmptyString => false
     | String _ s' => includes s' t
     end.

(** The code units of a string. *)
Definition chars (s : string) : list ascii := list_ascii_of_string s.

(** [s.split("/")]. *)
Fixpoint split (s : string) : list string :=
  match s with
  | EmptyString => [""]
  | String c s' =>
      if Ascii.eqb c "/" then "" :: split s'
      else match split s' with
           | seg :: segs => String c seg :: segs
           | [] => [String c ""]
           end
  end.

End JsString.
Import JsString.

(* ================================================================== *)
(** * [path.join] (POSIX) *)
(* ================================================================== *)

Module Path.

(** One step of Node's [normalizeString], on path segments.  [acc] is
    the result so far, last segment first.  Empty and [.] segments are
    skipped; [..] removes the last segment unless there is none or it
    is itself [..], in which case [..] is kept only when going above
    the root is allowed (relative paths). *)
Definition normalizeStep (allowAboveRoot : bool)
           (acc : list string) (seg : string) : list string :=
  if (seg =? "") || (seg =? ".") then acc
  else if seg =? ".." then
    match acc with
    | last :: rest =>
        if last =? ".." then (if allowAboveRoot then seg :: acc else acc)
        else rest
    | [] => if allowAboveRoot then [seg] else []
    end
  else seg :: acc.

(** A segment the normalisation keeps as it is: not empty, [.] or
    [..]. *)
Definition isName (seg : string) : bool :=
  negb ((seg =? "") || (seg =? ".") || (seg =? "..")).

(** A segment holds no separator. *)
Definition noSlash (seg : string) : Prop := ~ In "/"%char (chars seg).

(** The shape of a normalised segment list: some [..] (none unless
    going above the root is allowed), then names. *)
Definition normalForm (allowAboveRoot : bool) (l : list string) : Prop :=
  exists k names,
    l = (repeat ".." k ++ names)%list
    /\ Forall (fun n => isName n = true) names
    /\ (allowAboveRoot = false -> k = 0).

Definition normalizeString (allowAboveRoot : bool)
           (segs : list string) : list string :=
  rev (fold_left (normalizeStep allowAboveRoot) segs []).

Definition isAbsolute (path : string) : bool := prefix "/" path.

(** The segments of a path once [.], [..] and empty segments are
    resolved: what [normalize] keeps between the separators. *)
Definition segments (path : string) : list string :=
  normalizeString (negb (isAbsolute path)) (split path).

(** [path.normalize(p)]. *)
Definition normalize (path : string) : string :=
  if path =? "" then "."
  else
    let trailingSeparator := endsWith path "/" in
    let res := String.concat "/" (segments path) in
    if res =? "" then
      if isAbsolute path then "/"
      else if trailingSeparator then "./" else "."
    else
      (if isAbsolute path then "/" else "")
      ++ res ++ (if trailingSeparator then "/" else "").

(** [path.join(...paths)]: the non-empty arguments joined with [/],
    then normalized; [.] when nothing is left. *)
Definition join (paths : list string) : string :=
  match filter (fun p => negb (p =? "")) paths with
  | [] => "."
  | ps => normalize (String.concat "/" ps)
  end.

End Path.

(* ================================================================== *)
(** * Exceptions and arrays *)
(* ================================================================== *)

(** A thrown JavaScript value; only its identity matters here. *)
Definition Error := string.

(** The outcome of an expression that may throw. *)
Inductive Exc (A : Type) : Type :=
| Ok (a : A)
| Throw (e : Error).
Arguments Ok {A} a.
Arguments Throw {A} e.

Definition bindE {A B : Type} (c : Exc A) (k : A -> Exc B) : Exc B :=
  match c with
  | Ok a => k a
  | Throw e => Throw e
  end.

(** [try { body } catch { handler }]. *)
Definition try_catch {A : Type} (body : Exc A) (handler : Exc A) : Exc A :=
  match body with
  | Ok a => Ok a
  | Throw _ => handler
  end.

Declare Scope exc_scope.
Delimit Scope exc_scope with exc.
Notation "x <- c ;; k" := (bindE c (fun x => k))
  (at level 61, c at next level, right associativity) : exc_scope.

(** [arr.map(f)] for a callback that may throw: elements are visited in
    order and the first exception ends the call. *)
Fixpoint mapE {A B : Type} (f : A -> Exc B) (l : list A) : Exc (list B) :=
  match l with
  | [] => Ok []
  | x :: l' =>
      (y <- f x ;;
       ys <- mapE f l' ;;
       Ok (y :: ys))%exc
  end.

(** [arr.sort(cmp)].  ECMAScript requires a stable sort: an element goes
    before another when [cmp] is negative, and elements that compare
    equal keep their order.  The algorithm is the engine's choice;
    insertion from the right, which is stable, is the one written here.
    What is proved of it below, a sorted permutation, holds of any. *)
Fixpoint insert {A : Type} (cmp : A -> A -> Z) (x : A) (l : list A) : list A :=
  match l with
  | [] => [x]
  | y :: l' => if (cmp x y <=? 0)%Z then x :: l else y :: insert cmp x l'
  end.

Definition sort {A : Type} (cmp : A -> A -> Z) (l : list A) : list A :=
  fold_right (insert cmp) [] l.

(* ================================================================== *)
(** * The file system *)
(* ================================================================== *)

(** A JavaScript number holding a time in milliseconds. *)
Definition number := QArith_base.Q.

(** The part of [fs.Stats] the server reads. *)
Record Stats := { mtimeMs : number }.

(** The state of the disk as the server can observe it.
    - [readdirSync dir] lists the names in [dir], or throws.
    - [statSync p] reads the metadata of [p], or throws.
    - [fileContents p] is what [Bun.file(p)] finds when asked: the
      content of the regular file at [p], if there is one, [exists()]
      being whether there is any.  Asking throws for a path the system
      refuses, such as one that holds a NUL byte or is too long. *)
Record FileSystem := {
  readdirSync : string -> Exc (list string);
  statSync : string -> Exc Stats;
  fileContents : string -> Exc (option (list Byte.byte))
}.

(* ================================================================== *)
(** * PDF helpers: [listPdfs] *)
(* ================================================================== *)

(** An element of the array [listPdfs] returns. *)
Record PdfFile := {
  name : string;
  path : string;
  modified : number
}.

Section Scanner.

Variable PDF_DIR : string.
(** [a.localeCompare(b)]: negative, zero or positive. *)
Variable localeCompare : string -> string -> Z.
Variable fs : FileSystem.

(** The callback of [.map] in [listPdfs]. *)
Definition describe (name : string) : Exc PdfFile :=
  let fullPath := Path.join [PDF_DIR; name] in
  (stat <- statSync fs fullPath ;;
   Ok {| name := name; path := fullPath; modified := mtimeMs stat |})%exc.

(** The body of the [try] block of [listPdfs]. *)
Definition listPdfs_try : Exc (list PdfFile) :=
  (files <- readdirSync fs PDF_DIR ;;
   entries <- mapE describe (filter (fun f => endsWith f ".pdf") files) ;;
   Ok (sort (fun a b => localeCompare (name a) (name b)) entries))%exc.

Definition listPdfs : Exc (list PdfFile) :=
  try_catch listPdfs_try (Ok []).

End Scanner.

(* ================================================================== *)
(** * Web-socket clients and the change reaction *)
(* ================================================================== *)

(** A connection handle; only its identity matters. *)
Definition WebSocket := nat.

(** The objects the server serialises with [JSON.stringify] and sends:
    [{type: "pdfs-updated", files}] and [{type: "pdf-changed", name}]. *)
Inductive Message :=
| PdfsUpdated (files : list PdfFile)
| PdfChanged (name : string).

(** What the server does to the outside world: a console line, or a call
    of [ws.send(msg)] that returned [status]. *)
Inductive Effect :=
| ConsoleLog (line : string)
| WsSend (ws : WebSocket) (msg : Message) (status : Z).

(** [ws.send(msg)] as the network decides it.  Bun's [ServerWebSocket.send]
    returns a number: positive when the bytes were sent, [0] when the
    message was dropped (the connection is gone), [-1] on backpressure.
    Like every call it may also throw. *)
Definition Network := WebSocket -> Message -> Exc Z.

(** The mutable state of the module: the [clients] set, in insertion
    order, and the effects performed so far, oldest first. *)
Record World := {
  clients : list WebSocket;
  output : list Effect
}.

(** A statement: it may change the world and may throw; what was done
    before a throw stays done. *)
Definition M (A : Type) : Type := World -> Exc A * World.

Definition retM {A : Type} (a : A) : M A := fun w => (Ok a, w).

Definition bindM {A B : Type} (c : M A) (k : A -> M B) : M B :=
  fun w =>
    match c w with
    | (Ok a, w') => k a w'
    | (Throw e, w') => (Throw e, w')
    end.

Definition liftE {A : Type} (c : Exc A) : M A := fun w => (c, w).

Declare Scope m_scope.
Delimit Scope m_scope with M.
Notation "x <- c ;; k" := (bindM c (fun x => k))
  (at level 61, c at next level, right associativity) : m_scope.

Definition emit (e : Effect) : M unit :=
  fun w => (Ok tt, {| clients := clients w; output := output w ++ [e] |}).

Definition console_log (line : string) : M unit := emit (ConsoleLog line).

Definition getClients : M (list WebSocket) := fun w => (Ok (clients w), w).

(** [set.forEach(f)] over the elements [l] of the set: in insertion
    order, ended by the first exception. *)
Fixpoint forEach {A : Type} (l : list A) (f : A -> M Z) : M unit :=
  match l with
  | [] => retM tt
  | x :: l' => (_ <- f x ;; forEach l' f)%M
  end.

(** [Set.prototype.add] and [Set.prototype.delete]. *)
Definition set_add (ws : WebSocket) (s : list WebSocket) : list WebSocket :=
  if existsb (Nat.eqb ws) s then s else s ++ [ws].

Definition set_delete (ws : WebSocket) (s : list WebSocket) : list WebSocket :=
  filter (fun x => negb (Nat.eqb ws x)) s.

(** The [websocket.open] and [websocket.close] handlers. *)
Definition ws_open (ws : WebSocket) : M unit :=
  fun w => (Ok tt, {| clients := set_add ws (clients w); output := output w |}).

Definition ws_close (ws : WebSocket) : M unit :=
  fun w => (Ok tt, {| clients := set_delete ws (clients w); output := output w |}).

(** The first argument of the [watch] callback. *)
Inductive WatchEventType := rename | change.

Definition eventName (e : WatchEventType) : string :=
  match e with
  | rename => "rename"
  | change => "change"
  end.

Section Engine.

Variable PDF_DIR : string.
Variable localeCompare : string -> string -> Z.
Variable fs : FileSystem.
Variable net : Network.

(** [ws.send(msg)]. *)
Definition ws_send (ws : WebSocket) (msg : Message) : M Z :=
  fun w =>
    match net ws msg with
    | Ok st => (Ok st,
                {| clients := clients w;
                   output := output w ++ [WsSend ws msg st] |})
    | Throw e => (Throw e, w)
    end.

Definition broadcastPdfs : M unit :=
  (files <- liftE (listPdfs PDF_DIR localeCompare fs) ;;
   let msg := PdfsUpdated files in
   cs <- getClients ;;
   forEach cs (fun ws => ws_send ws msg))%M.

(** The callback given to [watch(PDF_DIR, ...)].  [filename] is [None]
    when the notification carries [null]; [filename?.endsWith(".pdf")]
    is then [undefined], which is falsy. *)
Definition onWatch (event : WatchEventType) (filename : option string)
  : M unit :=
  match filename with
  | Some f =>
      if endsWith f ".pdf" then
        (_ <- console_log ("[watch] " ++ eventName event ++ ": " ++ f) ;;
         _ <- broadcastPdfs ;;
         cs <- getClients ;;
         forEach cs (fun ws => ws_send ws (PdfChanged f)))%M
      else retM tt
  | None => retM tt
  end.

End Engine.

(* ================================================================== *)
(** * The route [/api/pdf/:name] *)
(* ================================================================== *)

(** The body of a [Response]: a string, or a [Bun.file] named by its
    path and read when the response is sent. *)
Inductive Body :=
| TextBody (text : string)
| FileBody (file : string).

Record Response := {
  status : Z;
  body : Body;
  headers : list (string * string)
}.

(** The bytes a response carries on the given disk. *)
Definition bodyBytes (fs : FileSystem) (b : Body) : option (list Byte.byte) :=
  match b with
  | TextBody text => Some (list_byte_of_string text)
  | FileBody file =>
      match fileContents fs file with
      | Ok content => content
      | Throw _ => None
      end
  end.

(** [Bun.file(p)] and then [await file.exists()]: whether a file is
    there, or the exception of either call. *)
Definition fileExists (fs : FileSystem) (p : string) : Exc bool :=
  match fileContents fs p with
  | Ok (Some _) => Ok true
  | Ok None => Ok false
  | Throw e => Throw e
  end.

Section Gateway.

Variable PDF_DIR : string.
(** [decodeURIComponent]; it throws [URIError] on a malformed escape. *)
Variable decodeURIComponent : string -> Exc string.
Variable fs : FileSystem.

(** The three rejections of the route, on the decoded name. *)
Definition invalidName (name : string) : bool :=
  negb (endsWith name ".pdf") || includes name "/" || includes name "..".

(** The handler; [param] is [req.params.name] as the router hands it
    over.  Nothing in the handler catches: an exception of
    [decodeURIComponent], of [Bun.file] or of [exists] leaves it. *)
Definition apiPdf (param : string) : M Response :=
  (name <- liftE (decodeURIComponent param) ;;
   if invalidName name then
     (_ <- console_log ("[serve] Rejected invalid file request: " ++ name) ;;
      retM {| status := 400; body := TextBody "Invalid file"; headers := [] |})
   else
     let filePath := Path.join [PDF_DIR; name] in
     found <- liftE (fileExists fs filePath) ;;
     if negb found then
       (_ <- console_log ("[serve] File not found: " ++ name) ;;
        retM {| status := 404; body := TextBody "Not found"; headers := [] |})
     else
       (_ <- console_log ("[serve] Serving PDF to client: " ++ name) ;;
        retM {| status := 200; body := FileBody filePath;
                headers := [("Content-Type", "application/pdf")] |}))%M.

End Gateway.

(* ================================================================== *)
(** * Reading the output *)
(* ================================================================== *)

(** The status [ws.send(msg)] returns on a network where it returns. *)
Definition sendStatus (net : Network) (ws : WebSocket) (msg : Message) : Z :=
  match net ws msg with
  | Ok st => st
  | Throw _ => 0
  end.

(** The record of the call [ws.send(msg)] on a network where it
    returns. *)
Definition sent (net : Network) (msg : Message) (ws : WebSocket) : Effect :=
  WsSend ws msg (sendStatus net ws msg).

(** The messages of the [send] calls made on one connection, oldest
    first. *)
Fixpoint sentTo (ws : WebSocket) (out : list Effect) : list Message :=
  match out with
  | [] => []
  | WsSend ws' msg _ :: out' =>
      if Nat.eqb ws ws' then msg :: sentTo ws out' else sentTo ws out'
  | ConsoleLog _ :: out' => sentTo ws out'
  end.

(** The [send] calls of an output. *)
Definition sends (out : list Effect) : list Effect :=
  filter (fun e => match e with WsSend _ _ _ => true | ConsoleLog _ => false end)
         out.

(* ================================================================== *)
(** * Sample environments *)
(* ================================================================== *)

(** A comparator to run the model with: the order of the code units. *)
Definition compareCodeUnits (a b : string) : Z :=
  match String.compare a b with
  | Lt => (-1)%Z
  | Eq => 0%Z
  | Gt => 1%Z
  end.

Definition stats_at (ms : Z) : Stats :=
  {| mtimeMs := QArith_base.Qmake ms 1 |}.

(** The files of a sample disk as [Bun.file] finds them: a path that
    holds a NUL byte is refused with an exception. *)
Definition found_in (lookup : string -> option (list Byte.byte))
  : string -> Exc (option (list Byte.byte)) :=
  fun p =>
    if includes p (String Ascii.zero "") then Throw "path holds a NUL byte"
    else Ok (lookup p).

(** A name the route accepts that holds a NUL byte. *)
Definition nul_name : string := String "a" (String Ascii.zero ".pdf").

(** [./pdfs] holds [b.pdf], [notes.txt] and [a.pdf], listed in that
    order. *)
Definition disk_two_pdfs : FileSystem :=
  {| readdirSync := fun dir =>
       if dir =? "./pdfs" then Ok ["b.pdf"; "notes.txt"; "a.pdf"]
       else Throw "ENOENT";
     statSync := fun p =>
       if p =? "pdfs/a.pdf" then Ok (stats_at 2000)
       else if p =? "pdfs/b.pdf" then Ok (stats_at 1000)
       else if p =? "pdfs/notes.txt" then Ok (stats_at 3000)
       else Throw "ENOENT";
     fileContents := found_in (fun p =>
       if p =? "pdfs/a.pdf" then Some (list_byte_of_string "%PDF-a")
       else if p =? "pdfs/b.pdf" then Some (list_byte_of_string "%PDF-b")
       else if p =? "pdfs/notes.txt" then Some (list_byte_of_string "notes")
       else None) |}.

(** [./pdfs] holds [a.pdf] and [broken.pdf], a link whose target is
    gone: it is listed, and [statSync] throws on it. *)
Definition disk_broken_entry : FileSystem :=
  {| readdirSync := fun dir =>
       if dir =? "./pdfs" then Ok ["a.pdf"; "broken.pdf"]
       else Throw "ENOENT";
     statSync := fun p =>
       if p =? "pdfs/a.pdf" then Ok (stats_at 2000) else Throw "ENOENT";
     fileContents := found_in (fun p =>
       if p =? "pdfs/a.pdf" then Some (list_byte_of_string "%PDF-a")
       else None) |}.

(** There is no [./pdfs]. *)
Definition disk_missing_dir : FileSystem :=
  {| readdirSync := fun _ => Throw "ENOENT";
     statSync := fun _ => Throw "ENOENT";
     fileContents := found_in (fun _ => None) |}.

(** [./pdfs] exists and is empty. *)
Definition disk_empty_dir : FileSystem :=
  {| readdirSync := fun dir => if dir =? "./pdfs" then Ok [] else Throw "ENOENT";
     statSync := fun _ => Throw "ENOENT";
     fileContents := found_in (fun _ => None) |}.

(** [./pdfs] after [gone.pdf] was deleted: only [a.pdf] is listed. *)
Definition disk_after_deletion : FileSystem :=
  {| readdirSync := fun _ => Ok ["a.pdf"];
     statSync := fun _ => Ok (stats_at 2000);
     fileContents := found_in (fun _ => None) |}.

(** Every [send] goes through. *)
Definition net_ok : Network := fun _ _ => Ok 1%Z.

(** The connection [gone] is closed: [send] on it returns [0]. *)
Definition net_dropping (gone : WebSocket) : Network :=
  fun ws _ => if Nat.eqb ws gone then Ok 0%Z else Ok 1%Z.

(** [send] throws on the connection [bad]. *)
Definition net_throwing (bad : WebSocket) : Network :=
  fun ws _ => if Nat.eqb ws bad then Throw "send failed" else Ok 1%Z.

(** What the specification asks of the names of a snapshot: they are the
    listed names that end in [.pdf], no more and no fewer. *)
Definition snapshotExact (files : list string) (snap : list PdfFile) : Prop :=
  forall f, In f (map name snap) <-> In f files /\ endsWith f ".pdf" = true.

(** Two registered clients, nothing done yet. *)
Definition two_clients : World := {| clients := [1; 2]; output := [] |}.

(** A decoder for parameters that hold no escape. *)
Definition decode_plain (s : string) : Exc string :=
  if includes s "%" then Throw "URIError" else Ok s.


(* ================================================================== *)
(** * The connection life cycle *)
(* ================================================================== *)

(** What the runtime reports about a connection: it calls
    [websocket.open] or [websocket.close], one call at a time. *)
Inductive WsEvent :=
| Opened (ws : WebSocket)
| Closed (ws : WebSocket).

Definition handle (e : WsEvent) : M unit :=
  match e with
  | Opened ws => ws_open ws
  | Closed ws => ws_close ws
  end.

Fixpoint handleAll (evs : list WsEvent) : M unit :=
  match evs with
  | [] => retM tt
  | e :: evs' => (_ <- handle e ;; handleAll evs')%M
  end.

(** The module once loaded: [new Set()] and nothing done. *)
Definition startWorld : World := {| clients := []; output := [] |}.

(** Whether the last event about [ws] is an [open], [before] telling
    what holds when there is none. *)
Definition lastIsOpen (ws : WebSocket) (evs : list WsEvent) (before : bool)
  : bool :=
  fold_left
    (fun b e =>
       match e with
       | Opened x => if Nat.eqb x ws then true else b
       | Closed x => if Nat.eqb x ws then false else b
       end)
    evs before.

(* ================================================================== *)
(** * The route [/api/pdfs] *)
(* ================================================================== *)

(** The loop of [path.resolve] (POSIX), over the arguments from the
    last to the first and then the working directory: empty strings are
    skipped, each path is put in front of what was gathered, and the loop
    stops at the first absolute path. *)
Fixpoint resolveLoop (paths : list string) (resolvedPath : string)
  : string * bool :=
  match paths with
  | [] => (resolvedPath, false)
  | p :: rest =>
      if p =? "" then resolveLoop rest resolvedPath
      else
        let resolvedPath := p ++ "/" ++ resolvedPath in
        if Path.isAbsolute p then (resolvedPath, true)
        else resolveLoop rest resolvedPath
  end.

(** [path.resolve(...paths)] in a process whose working directory is
    [cwd]. *)
Definition resolve (cwd : string) (paths : list string) : string :=
  let (resolvedPath, resolvedAbsolute) := resolveLoop (rev (cwd :: paths)) "" in
  let res :=
    String.concat "/"
      (Path.normalizeString (negb resolvedAbsolute) (split resolvedPath)) in
  if resolvedAbsolute then "/" ++ res
  else if res =? "" then "." else res.

(** What [Response.json({files, watchedDir})] answers. *)
Record ListResponse := {
  listStatus : Z;
  listFiles : list PdfFile;
  watchedDir : string
}.

Section ListRoute.

Variable PDF_DIR : string.
Variable localeCompare : string -> string -> Z.
Variable fs : FileSystem.
(** [process.cwd()]. *)
Variable cwd : string.

(** The [GET] handler of [/api/pdfs]. *)
Definition apiPdfs : M ListResponse :=
  (files <- liftE (listPdfs PDF_DIR localeCompare fs) ;;
   retM {| listStatus := 200;
           listFiles := files;
           watchedDir := resolve cwd [PDF_DIR] |})%M.

End ListRoute.

(* ================================================================== *)
(** * The viewer: [ws.onmessage] of [App.tsx] *)
(* ================================================================== *)

(** The React state of [App]. *)
Record View := {
  pdfs : list PdfFile;
  selectedPdf : option string;
  viewConnected : bool;
  viewWatchedDir : string;
  refreshKey : nat
}.

(** [msg.files.some(f => f.name === current)]; [current] may be
    [null], which equals no name. *)
Definition stillExists (files : list PdfFile) (current : option string) : bool :=
  match current with
  | Some c => existsb (fun f => name f =? c) files
  | None => false
  end.

(** The handler, on the parsed message.  [closureSelected] is the
    [selectedPdf] the handler's closure reads in [msg.name ===
    selectedPdf]: the state of the render that installed the handler.
    The updater given to [setSelectedPdf] reads the current state. *)
Definition onmessage (closureSelected : option string) (msg : Message)
           (v : View) : View :=
  match msg with
  | PdfsUpdated files =>
      {| pdfs := files;
         selectedPdf :=
           if stillExists files (selectedPdf v) then selectedPdf v
           else match files with
                | f :: _ => Some (name f)
                | [] => None
                end;
         viewConnected := viewConnected v;
         viewWatchedDir := viewWatchedDir v;
         refreshKey := refreshKey v |}
  | PdfChanged n =>
      if match closureSelected with
         | Some s => n =? s
         | None => false
         end
      then {| pdfs := pdfs v;
              selectedPdf := selectedPdf v;
              viewConnected := viewConnected v;
              viewWatchedDir := viewWatchedDir v;
              refreshKey := S (refreshKey v) |}
      else v
  end.

(** The messages of a connection, handled in the order received. *)
Definition onmessages (closureSelected : option string)
           (msgs : list Message) (v : View) : View :=
  fold_left (fun v msg => onmessage closureSelected msg v) msgs v.

(** The viewer before any message. *)
Definition startView : View :=
  {| pdfs := []; selectedPdf := None; viewConnected := false;
     viewWatchedDir := ""; refreshKey := 0 |}.

(** A comparator that tells no two names apart in order only when they
    are the same name. *)
Definition antisymmetric (cmp : string -> string -> Z) : Prop :=
  forall a b, (cmp a b <= 0)%Z -> (cmp b a <= 0)%Z -> a = b.

(** [./pdfs] as [disk_two_pdfs], listed in another order. *)
Definition disk_two_pdfs_relisted : FileSystem :=
  {| readdirSync := fun dir =>
       if dir =? "./pdfs" then Ok ["a.pdf"; "b.pdf"; "notes.txt"]
       else Throw "ENOENT";
     statSync := statSync disk_two_pdfs;
     fileContents := fileContents disk_two_pdfs |}.

(* ================================================================== *)
(** * Properties of the string functions *)
(* ================================================================== *)

Section StringFacts.

Lemma append_nil_r (s : string) : s ++ "" = s.
Proof. induction s as [|c s IH]; simpl; congruence. Qed.

Lemma append_assoc (a b c : string) : (a ++ b) ++ c = a ++ (b ++ c).
Proof. induction a as [|x a IH]; simpl; congruence. Qed.

Lemma length_append (a b : string) :
  length (a ++ b) = length a + length b.
Proof. induction a as [|x a IH]; simpl; congruence. Qed.

Lemma length_zero (s : string) : length s = 0 -> s = "".
Proof. destruct s; simpl; [reflexivity | discriminate]. Qed.

Lemma chars_append (a b : string) : chars (a ++ b) = (chars a ++ chars b)%list.
Proof. unfold chars. induction a as [|x a IH]; simpl; congruence. Qed.

(** The first [m] code units of a string that has at least [m]. *)
Lemma substring_head (m : nat) : forall s,
    m <= length s -> exists q, s = substring 0 m s ++ q.
Proof.
  induction m as [|m IH]; intros s Hlen.
  - exists s. destruct s; reflexivity.
  - destruct s as [|c s]; simpl in Hlen; [lia|].
    destruct (IH s) as [q Hq]; [lia|].
    exists q. simpl. congruence.
Qed.

Lemma substring_split (n : nat) : forall m s,
    n + m <= length s ->
    exists p q, s = p ++ substring n m s ++ q /\ length p = n.
Proof.
  induction n as [|n IH]; intros m s Hlen.
  - destruct (substring_head m s) as [q Hq]; [lia|].
    exists "", q. split; [exact Hq | reflexivity].
  - destruct s as [|c s]; simpl in Hlen; [lia|].
    destruct (IH m s) as (p & q & Hs & Hp); [lia|].
    exists (String c p), q. simpl. split; congruence.
Qed.

Lemma substring_suffix (p : string) : forall t,
    substring (length p) (length t) (p ++ t) = t.
Proof.
  induction p as [|c p IH]; intros t; simpl.
  - induction t as [|d t IHt]; simpl; [reflexivity | congruence].
  - apply IH.
Qed.

(** [endsWith] holds exactly of the strings that are something followed
    by the suffix. *)
Lemma endsWith_app (p t : string) : endsWith (p ++ t) t = true.
Proof.
  unfold endsWith. rewrite length_append.
  apply andb_true_intro; split.
  - apply Nat.leb_le. lia.
  - replace (length p + length t - length t) with (length p) by lia.
    rewrite substring_suffix. apply String.eqb_refl.
Qed.

Lemma endsWith_inv (s t : string) :
  endsWith s t = true -> exists p, s = p ++ t.
Proof.
  unfold endsWith. intros H.
  apply andb_prop in H. destruct H as [Hlen Heq].
  apply Nat.leb_le in Hlen. apply String.eqb_eq in Heq.
  destruct (substring_split (length s - length t) (length t) s)
    as (p & q & Hs & Hp); [lia|].
  rewrite Heq in Hs.
  assert (Hq : q = "").
  { apply length_zero.
    apply (f_equal length) in Hs.
    rewrite !length_append in Hs. lia. }
  subst q. rewrite append_nil_r in Hs. now exists p.
Qed.

Lemma endsWith_iff (s t : string) :
  endsWith s t = true <-> exists p, s = p ++ t.
Proof.
  split; [apply endsWith_inv|].
  intros [p ->]. apply endsWith_app.
Qed.

Lemma prefix_app (t q : string) : prefix t (t ++ q) = true.
Proof.
  induction t as [|c t IH]; simpl.
  - destruct q; reflexivity.
  - destruct (ascii_dec c c); [exact IH | congruence].
Qed.

Lemma prefix_inv (t : string) : forall s,
    prefix t s = true -> exists q, s = t ++ q.
Proof.
  induction t as [|c t IH]; intros s H.
  - now exists s.
  - destruct s as [|d s]; simpl in H; [discriminate|].
    destruct (ascii_dec c d) as [->|]; [|discriminate].
    destruct (IH s H) as [q ->]. now exists q.
Qed.

(** [includes] holds exactly of the strings with the pattern somewhere
    inside. *)
Lemma includes_iff (s t : string) :
  includes s t = true <-> exists p q, s = p ++ t ++ q.
Proof.
  split.
  - induction s as [|c s IH]; cbn [includes]; intros H;
      apply orb_prop in H; destruct H as [H|H]; try discriminate.
    + destruct (prefix_inv _ _ H) as [q Hq]. now exists "", q.
    + destruct (prefix_inv _ _ H) as [q Hq]. now exists "", q.
    + destruct (IH H) as (p & q & ->). now exists (String c p), q.
  - intros (p & q & ->).
    induction p as [|c p IH].
    + change ("" ++ t ++ q) with (t ++ q).
      destruct (t ++ q) eqn:E; cbn [includes];
        rewrite <- E, prefix_app; reflexivity.
    + change (String c p ++ t ++ q) with (String c (p ++ t ++ q)).
      cbn [includes]. rewrite IH. apply orb_true_r.
Qed.

(** A name without [/] as a substring has no [/] code unit. *)
Lemma includes_char_in (c : ascii) (s : string) :
  In c (chars s) -> includes s (String c "") = true.
Proof.
  unfold chars.
  induction s as [|d s IH]; intros Hin; [contradiction|].
  cbn [includes]. destruct Hin as [->|Hin].
  - replace (prefix (String c "") (String c s)) with true; [reflexivity|].
    simpl. destruct (ascii_dec c c); [|congruence]. now destruct s.
  - rewrite (IH Hin). apply orb_true_r.
Qed.

Lemma includes_char (c : ascii) (s : string) :
  includes s (String c "") = false -> ~ In c (chars s).
Proof.
  intros H Hin. rewrite (includes_char_in _ _ Hin) in H. discriminate.
Qed.

End StringFacts.

(* ================================================================== *)
(** * Properties of [path.join] *)
(* ================================================================== *)

Section PathFacts.

Import Path.

Lemma split_not_nil (s : string) : split s <> [].
Proof.
  induction s as [|c s IH]; simpl; [discriminate|].
  destruct (Ascii.eqb c "/"); [discriminate|].
  destruct (split s); discriminate.
Qed.

Lemma split_no_slash (s : string) : noSlash s -> split s = [s].
Proof.
  unfold noSlash, chars.
  induction s as [|c s IH]; simpl; intros H; [reflexivity|].
  destruct (Ascii.eqb_spec c "/") as [->|Hc].
  - exfalso. apply H. now left.
  - rewrite IH; [reflexivity|]. intros Hin. apply H. now right.
Qed.

Lemma split_app_slash (a b : string) :
  split (a ++ String "/" b) = (split a ++ split b)%list.
Proof.
  induction a as [|c a IH]; simpl; [reflexivity|].
  destruct (Ascii.eqb c "/").
  - now rewrite IH.
  - rewrite IH. destruct (split a) eqn:E; [|reflexivity].
    now apply split_not_nil in E.
Qed.

Lemma split_segments_no_slash (s : string) : Forall noSlash (split s).
Proof.
  unfold noSlash, chars.
  induction s as [|c s IH]; simpl.
  - constructor; [intros []|constructor].
  - destruct (Ascii.eqb_spec c "/") as [->|Hc].
    + constructor; [intros []|exact IH].
    + destruct (split s) as [|seg segs] eqn:E; [now apply split_not_nil in E|].
      inversion IH as [|? ? Hseg Hsegs]; subst.
      constructor; [|exact Hsegs].
      simpl. intros [Heq|Hin]; [now subst|now apply Hseg].
Qed.

(** Splitting undoes joining with [/]. *)
Lemma split_concat (l : list string) :
  l <> [] -> Forall noSlash l -> split (String.concat "/" l) = l.
Proof.
  induction l as [|x l IH]; intros Hne Hl; [congruence|].
  inversion Hl as [|? ? Hx Hrest]; subst.
  destruct l as [|y l].
  - simpl. now apply split_no_slash.
  - change (String.concat "/" (x :: y :: l))
      with (x ++ String "/" (String.concat "/" (y :: l))).
    rewrite split_app_slash, (split_no_slash x Hx), IH;
      [reflexivity | discriminate | exact Hrest].
Qed.

Lemma isName_inv (seg : string) :
  isName seg = true -> seg <> "" /\ seg <> "." /\ seg <> "..".
Proof.
  unfold isName. intros H.
  apply negb_true_iff in H.
  apply orb_false_elim in H. destruct H as [H H3].
  apply orb_false_elim in H. destruct H as [H1 H2].
  repeat split; apply String.eqb_neq; assumption.
Qed.

Lemma normalizeStep_name (allow : bool) (acc : list string) (seg : string) :
  isName seg = true -> normalizeStep allow acc seg = seg :: acc.
Proof.
  intros H. destruct (isName_inv _ H) as (H1 & H2 & H3).
  unfold normalizeStep.
  apply String.eqb_neq in H1, H2, H3. now rewrite H1, H2, H3.
Qed.

Lemma normalizeString_snoc (allow : bool) (segs : list string) (seg : string) :
  isName seg = true ->
  normalizeString allow (segs ++ [seg])
  = (normalizeString allow segs ++ [seg])%list.
Proof.
  intros H. unfold normalizeString.
  rewrite fold_left_app. simpl. now rewrite normalizeStep_name.
Qed.

Lemma fold_names (allow : bool) (names : list string) : forall acc,
    Forall (fun n => isName n = true) names ->
    fold_left (normalizeStep allow) names acc = (rev names ++ acc)%list.
Proof.
  induction names as [|n names IH]; intros acc Hn; [reflexivity|].
  inversion Hn; subst. simpl.
  rewrite normalizeStep_name by assumption.
  rewrite IH by assumption. now rewrite <- app_assoc.
Qed.

Lemma fold_dots (k : nat) : forall j,
    fold_left (normalizeStep true) (repeat ".." k) (repeat ".." j)
    = repeat ".." (k + j).
Proof.
  induction k as [|k IH]; intros j; [reflexivity|].
  simpl repeat at 1. simpl fold_left.
  replace (normalizeStep true (repeat ".." j) "..") with (repeat ".." (S j)).
  - rewrite IH. f_equal. lia.
  - destruct j; reflexivity.
Qed.

Lemma rev_case {A : Type} (l : list A) :
  l = [] \/ exists l' a, l = (l' ++ [a])%list.
Proof. induction l using rev_ind; [now left | right; eauto]. Qed.

Lemma normalizeStep_shape (allow : bool) (acc : list string) (seg : string) :
  normalForm allow (rev acc) ->
  normalForm allow (rev (normalizeStep allow acc seg)).
Proof.
  intros (k & names & Hacc & Hnames & Hk).
  destruct (isName seg) eqn:Hseg.
  - rewrite normalizeStep_name by assumption.
    exists k, (names ++ [seg])%list. simpl. rewrite Hacc, <- app_assoc.
    repeat split; [|exact Hk].
    apply Forall_app. split; [exact Hnames | now constructor].
  - unfold normalizeStep, isName in *.
    apply negb_false_iff in Hseg.
    destruct ((seg =? "") || (seg =? ".")) eqn:E.
    + now exists k, names.
    + simpl in Hseg. rewrite Hseg.
      apply String.eqb_eq in Hseg. subst seg.
      destruct (rev_case names) as [->|(names' & n & ->)].
      * rewrite app_nil_r in Hacc.
        assert (acc = repeat ".." k) as ->.
        { rewrite <- (rev_involutive acc), Hacc. apply rev_repeat. }
        destruct k as [|k]; simpl.
        -- destruct allow; [|now exists 0, []].
           exists 1, []. repeat split; [constructor | discriminate].
        -- destruct allow; [|now specialize (Hk eq_refl)].
           exists (S (S k)), []. rewrite app_nil_r.
           change (".." :: ".." :: repeat ".." k) with (repeat ".." (S (S k))).
           rewrite rev_repeat.
           repeat split; [constructor | discriminate].
      * assert (acc = n :: rev (repeat ".." k ++ names')) as ->.
        { rewrite <- (rev_involutive acc), Hacc, app_assoc.
          now rewrite rev_app_distr. }
        apply Forall_app in Hnames. destruct Hnames as [Hn' Hn].
        inversion Hn as [|? ? Hn0 _]; subst.
        destruct (isName_inv _ Hn0) as (_ & _ & Hdd).
        apply String.eqb_neq in Hdd. rewrite Hdd.
        rewrite rev_involutive. now exists k, names'.
Qed.

Lemma normalizeString_shape (allow : bool) (segs : list string) :
  normalForm allow (normalizeString allow segs).
Proof.
  unfold normalizeString.
  assert (H : forall acc, normalForm allow (rev acc) ->
              normalForm allow (rev (fold_left (normalizeStep allow) segs acc))).
  { induction segs as [|seg segs IH]; intros acc Hacc; [exact Hacc|].
    simpl. apply IH. now apply normalizeStep_shape. }
  apply H. exists 0, []. repeat split; constructor.
Qed.

(** Normalising a normalised list changes nothing. *)
Lemma normalizeString_fixed (allow : bool) (l : list string) :
  normalForm allow l -> normalizeString allow l = l.
Proof.
  intros (k & names & -> & Hnames & Hk).
  unfold normalizeString. rewrite fold_left_app.
  assert (Hd : fold_left (normalizeStep allow) (repeat ".." k) []
               = repeat ".." k).
  { destruct allow.
    - change (@nil string) with (repeat ".." 0).
      rewrite fold_dots. f_equal. lia.
    - now rewrite (Hk eq_refl). }
  rewrite Hd, fold_names by assumption.
  now rewrite rev_app_distr, rev_involutive, rev_repeat.
Qed.

Lemma normalForm_no_slash (allow : bool) (segs : list string) :
  Forall noSlash segs -> Forall noSlash (normalizeString allow segs).
Proof.
  intros Hsegs. unfold normalizeString.
  apply Forall_rev.
  assert (H : forall acc, Forall noSlash acc ->
              Forall noSlash (fold_left (normalizeStep allow) segs acc)).
  { induction Hsegs as [|seg segs Hseg _ IH]; intros acc Hacc; [exact Hacc|].
    simpl. apply IH. unfold normalizeStep.
    destruct ((seg =? "") || (seg =? ".")); [exact Hacc|].
    destruct (seg =? "..").
    - destruct acc as [|last rest]; [destruct allow; auto|].
      inversion Hacc; subst.
      destruct (last =? ".."); [destruct allow; auto | assumption].
    - now constructor. }
  apply H. constructor.
Qed.

Lemma segments_shape (p : string) :
  normalForm (negb (isAbsolute p)) (segments p) /\ Forall noSlash (segments p).
Proof.
  split; [apply normalizeString_shape|].
  apply normalForm_no_slash, split_segments_no_slash.
Qed.

Lemma normalForm_snoc (allow : bool) (l : list string) (seg : string) :
  normalForm allow l -> isName seg = true -> normalForm allow (l ++ [seg]).
Proof.
  intros (k & names & -> & Hnames & Hk) Hseg.
  exists k, (names ++ [seg])%list. rewrite <- app_assoc.
  repeat split; [|exact Hk].
  apply Forall_app. split; [exact Hnames | now constructor].
Qed.

Lemma prefix_nil (s : string) : prefix "" s = true.
Proof. now destruct s. Qed.

Lemma prefix_cons (a b : ascii) (s t : string) :
  prefix (String a s) (String b t)
  = if ascii_dec a b then prefix s t else false.
Proof. reflexivity. Qed.

Lemma isAbsolute_app (a b : string) :
  a <> "" -> isAbsolute (a ++ b) = isAbsolute a.
Proof.
  destruct a as [|c a]; [congruence|]. intros _.
  unfold isAbsolute.
  change (String c a ++ b) with (String c (a ++ b)).
  rewrite !prefix_cons.
  destruct (ascii_dec "/" c); [|reflexivity]. now rewrite !prefix_nil.
Qed.

Lemma isAbsolute_no_slash (s : string) : noSlash s -> isAbsolute s = false.
Proof.
  unfold noSlash, chars, isAbsolute. intros H.
  destruct s as [|c s]; [reflexivity|]. rewrite prefix_cons.
  destruct (ascii_dec "/" c) as [<-|]; [|reflexivity].
  exfalso. apply H. now left.
Qed.

Lemma concat_snoc_not_empty (l : list string) (seg : string) :
  seg <> "" -> String.concat "/" (l ++ [seg]) <> "".
Proof.
  intros Hseg. destruct l as [|x l]; [exact Hseg|].
  simpl. destruct (l ++ [seg])%list eqn:E.
  - now destruct l.
  - destruct x; discriminate.
Qed.

(** A joined list of normalised segments does not start with [/]. *)
Lemma concat_relative (l : list string) :
  Forall noSlash l -> Forall (fun seg => seg <> "") l ->
  isAbsolute (String.concat "/" l) = false.
Proof.
  intros Hs Hne. destruct l as [|x l]; [reflexivity|].
  inversion Hs; inversion Hne; subst.
  destruct l as [|y l]; simpl.
  - now apply isAbsolute_no_slash.
  - rewrite isAbsolute_app by assumption. now apply isAbsolute_no_slash.
Qed.

Lemma normalForm_not_empty (allow : bool) (l : list string) :
  normalForm allow l -> Forall (fun seg => seg <> "") l.
Proof.
  intros (k & names & -> & Hnames & _).
  apply Forall_app. split.
  - apply Forall_forall. intros x Hx.
    apply repeat_spec in Hx. now subst.
  - eapply Forall_impl; [|exact Hnames].
    intros n Hn. now destruct (isName_inv _ Hn).
Qed.

(** What the checks of the route leave of a name. *)
Lemma accepted_name (name : string) :
  invalidName name = false ->
  (exists stem, name = stem ++ ".pdf") /\ noSlash name /\ isName name = true.
Proof.
  unfold invalidName. intros H.
  apply orb_false_elim in H. destruct H as [H Hdd].
  apply orb_false_elim in H. destruct H as [Hpdf Hslash].
  apply negb_false_iff, endsWith_inv in Hpdf.
  destruct Hpdf as [stem ->].
  repeat split.
  - now exists stem.
  - now apply includes_char.
  - unfold isName. apply negb_true_iff.
    assert (Hlen : 4 <= length (stem ++ ".pdf"))
      by (rewrite length_append; simpl; lia).
    destruct (String.eqb_spec (stem ++ ".pdf") "") as [E|_];
      [rewrite E in Hlen; simpl in Hlen; lia|].
    destruct (String.eqb_spec (stem ++ ".pdf") ".") as [E|_];
      [rewrite E in Hlen; simpl in Hlen; lia|].
    destruct (String.eqb_spec (stem ++ ".pdf") "..") as [E|_];
      [rewrite E in Hlen; simpl in Hlen; lia|].
    reflexivity.
Qed.

Lemma pdf_not_trailing_slash (q stem : string) :
  endsWith (q ++ stem ++ ".pdf") "/" = false.
Proof.
  apply not_true_is_false. intros H.
  apply endsWith_inv in H. destruct H as [r Hr].
  apply (f_equal chars) in Hr. rewrite !chars_append in Hr.
  change (chars ".pdf") with (["."; "p"; "d"]%char ++ ["f"%char])%list in Hr.
  rewrite !app_assoc in Hr.
  apply app_inj_tail in Hr. destruct Hr as [_ Hr]. discriminate.
Qed.

(** The path of an accepted name: the normalised root followed by the
    name as one more segment. *)
Lemma join_accepted (root name : string) :
  invalidName name = false ->
  join [root; name]
  = (if isAbsolute root then "/" else "")
    ++ String.concat "/" (segments root ++ [name]).
Proof.
  intros Hok.
  destruct (accepted_name _ Hok) as ((stem & Hstem) & Hslash & Hname).
  destruct (isName_inv _ Hname) as (Hne & _ & _).
  assert (Hjoin : forall p, p <> "" ->
            isAbsolute p = isAbsolute root ->
            segments p = (segments root ++ [name])%list ->
            endsWith p "/" = false ->
            normalize p
            = (if isAbsolute root then "/" else "")
              ++ String.concat "/" (segments root ++ [name])).
  { intros p Hp Habs Hsegs Htrail. unfold normalize.
    apply String.eqb_neq in Hp. rewrite Hp, Hsegs, Htrail, Habs.
    pose proof (concat_snoc_not_empty (segments root) name Hne) as Hres.
    apply String.eqb_neq in Hres. rewrite Hres.
    now rewrite append_nil_r. }
  unfold join. simpl filter.
  apply String.eqb_neq in Hne. rewrite Hne. simpl negb.
  destruct (String.eqb_spec root "") as [->|Hroot]; simpl negb; cbv iota.
  - simpl String.concat. apply Hjoin.
    + now apply String.eqb_neq.
    + now apply isAbsolute_no_slash.
    + unfold segments. rewrite (isAbsolute_no_slash name Hslash).
      rewrite (split_no_slash name Hslash).
      exact (normalizeString_snoc true [] name Hname).
    + rewrite Hstem. apply (pdf_not_trailing_slash "").
  - change (String.concat "/" [root; name]) with (root ++ String "/" name).
    apply Hjoin.
    + destruct root; [congruence | discriminate].
    + now apply isAbsolute_app.
    + unfold segments. rewrite isAbsolute_app by assumption.
      rewrite split_app_slash, (split_no_slash name Hslash).
      now apply normalizeString_snoc.
    + rewrite Hstem.
      change (root ++ String "/" (stem ++ ".pdf"))
        with (root ++ "/" ++ (stem ++ ".pdf")).
      rewrite <- append_assoc. apply pdf_not_trailing_slash.
Qed.

(** Reading back the segments of a path written from a normalised
    list. *)
Lemma segments_written (abs : bool) (l : list string) :
  l <> [] -> normalForm (negb abs) l -> Forall noSlash l ->
  let p := (if abs then "/" else "") ++ String.concat "/" l in
  isAbsolute p = abs /\ segments p = l.
Proof.
  intros Hne Hnf Hs p.
  assert (Habs : isAbsolute p = abs).
  { subst p. destruct abs.
    - unfold isAbsolute.
      change ("/" ++ String.concat "/" l)
        with (String "/" (String.concat "/" l)).
      rewrite prefix_cons, prefix_nil.
      now destruct (ascii_dec "/" "/").
    - apply concat_relative; [exact Hs|].
      eapply normalForm_not_empty; exact Hnf. }
  split; [exact Habs|].
  unfold segments. rewrite Habs. subst p.
  destruct abs.
  - change ("/" ++ String.concat "/" l) with ("" ++ String "/" (String.concat "/" l)).
    rewrite split_app_slash, split_concat by assumption.
    change (split "" ++ l)%list with ("" :: l).
    unfold normalizeString. simpl fold_left.
    now apply normalizeString_fixed.
  - simpl. rewrite split_concat by assumption.
    now apply normalizeString_fixed.
Qed.

End PathFacts.

(* ================================================================== *)
(** * Properties of [map] and [sort] *)
(* ================================================================== *)

Section ArrayFacts.

Context {A B : Type}.

Lemma mapE_ok (f : A -> Exc B) (l : list A) :
  (forall x, In x l -> exists y, f x = Ok y) ->
  exists ys, mapE f l = Ok ys /\ Forall2 (fun x y => f x = Ok y) l ys.
Proof.
  induction l as [|x l IH]; intros Hall.
  - exists []. split; [reflexivity | constructor].
  - destruct (Hall x (or_introl eq_refl)) as [y Hy].
    destruct IH as (ys & Hys & Hrel).
    { intros z Hz. apply Hall. now right. }
    exists (y :: ys). simpl. rewrite Hy. simpl. rewrite Hys. simpl.
    split; [reflexivity | now constructor].
Qed.

Lemma mapE_throw (f : A -> Exc B) (l : list A) (x : A) (e : Error) :
  In x l -> f x = Throw e -> exists e', mapE f l = Throw e'.
Proof.
  induction l as [|z l IH]; intros Hin Hx; [contradiction|].
  simpl. destruct Hin as [->|Hin].
  - rewrite Hx. now exists e.
  - destruct (f z) as [y|e0]; simpl; [|now exists e0].
    destruct (IH Hin Hx) as [e' ->]. now exists e'.
Qed.

Variable cmp : A -> A -> Z.
Let le (a b : A) : Prop := (cmp a b <= 0)%Z.

Lemma insert_perm (x : A) (l : list A) : Permutation (insert cmp x l) (x :: l).
Proof.
  induction l as [|y l IH]; simpl; [reflexivity|].
  destruct (cmp x y <=? 0)%Z; [reflexivity|].
  rewrite IH. apply perm_swap.
Qed.

Lemma sort_perm (l : list A) : Permutation (sort cmp l) l.
Proof.
  induction l as [|x l IH]; simpl; [reflexivity|].
  rewrite insert_perm. now constructor.
Qed.

Hypothesis cmp_total : forall a b, le a b \/ le b a.
Hypothesis cmp_trans : forall a b c, le a b -> le b c -> le a c.

Lemma insert_sorted (x : A) (l : list A) :
  StronglySorted le l -> StronglySorted le (insert cmp x l).
Proof.
  induction 1 as [|y l Hl IH Hy]; simpl.
  - repeat constructor.
  - destruct (Z.leb_spec (cmp x y) 0) as [Hxy|Hxy].
    + constructor; [now constructor|].
      constructor; [exact Hxy|].
      eapply Forall_impl; [|exact Hy]. intros z Hz. now apply cmp_trans with y.
    + constructor; [exact IH|].
      assert (Hyx : le y x).
      { destruct (cmp_total x y) as [H|H]; [unfold le in H; lia | exact H]. }
      eapply Permutation_Forall; [symmetry; apply insert_perm|].
      now constructor.
Qed.

Lemma sort_sorted (l : list A) : StronglySorted le (sort cmp l).
Proof.
  induction l as [|x l IH]; simpl; [constructor|].
  now apply insert_sorted.
Qed.

End ArrayFacts.

Section ComparatorFacts.

Lemma ascii_compare_refl (c : ascii) : Ascii.compare c c = Eq.
Proof. unfold Ascii.compare. apply N.compare_refl. Qed.

Lemma ascii_compare_lt_trans (a b c : ascii) :
  Ascii.compare a b = Lt -> Ascii.compare b c = Lt -> Ascii.compare a c = Lt.
Proof.
  unfold Ascii.compare. rewrite !N.compare_lt_iff. apply N.lt_trans.
Qed.

Lemma string_compare_trans (a : string) : forall b c,
    String.compare a b <> Gt -> String.compare b c <> Gt ->
    String.compare a c <> Gt.
Proof.
  induction a as [|x a IH]; intros [|y b] [|z c]; simpl; try congruence.
  destruct (Ascii.compare x y) eqn:Exy; try congruence;
    destruct (Ascii.compare y z) eqn:Eyz; try congruence.
  - apply Ascii.compare_eq_iff in Exy, Eyz. subst.
    rewrite ascii_compare_refl. apply IH.
  - apply Ascii.compare_eq_iff in Exy. subst. rewrite Eyz. congruence.
  - apply Ascii.compare_eq_iff in Eyz. subst. rewrite Exy. congruence.
  - rewrite (ascii_compare_lt_trans _ _ _ Exy Eyz). congruence.
Qed.

Lemma compareCodeUnits_le (a b : string) :
  (compareCodeUnits a b <= 0)%Z <-> String.compare a b <> Gt.
Proof.
  unfold compareCodeUnits.
  destruct (String.compare a b); split; intros; try lia; congruence.
Qed.

Lemma compareCodeUnits_total (a b : string) :
  (compareCodeUnits a b <= 0 \/ compareCodeUnits b a <= 0)%Z.
Proof.
  unfold compareCodeUnits. rewrite (String.compare_antisym a b).
  destruct (String.compare b a); simpl; lia.
Qed.

Lemma compareCodeUnits_trans (a b c : string) :
  (compareCodeUnits a b <= 0 -> compareCodeUnits b c <= 0 ->
   compareCodeUnits a c <= 0)%Z.
Proof.
  rewrite !compareCodeUnits_le. apply string_compare_trans.
Qed.

End ComparatorFacts.

(* ================================================================== *)
(** * The directory scan *)
(* ================================================================== *)

Section ScannerFacts.

Variable PDF_DIR : string.
Variable localeCompare : string -> string -> Z.
Variable fs : FileSystem.

Lemma describe_name (f : string) (d : PdfFile) :
  describe PDF_DIR fs f = Ok d ->
  name d = f /\ path d = Path.join [PDF_DIR; f].
Proof.
  unfold describe. destruct (statSync fs _); simpl; [|discriminate].
  intros [= <-]. now split.
Qed.

Lemma described_names (l : list string) (ds : list PdfFile) :
  Forall2 (fun f d => describe PDF_DIR fs f = Ok d) l ds -> map name ds = l.
Proof.
  induction 1 as [|f d l ds Hd _ IH]; simpl; [reflexivity|].
  destruct (describe_name _ _ Hd) as [-> _]. now rewrite IH.
Qed.

(** The [catch] clause leaves no exception: a scan always returns. *)
Lemma listPdfs_returns : exists snap, listPdfs PDF_DIR localeCompare fs = Ok snap.
Proof.
  unfold listPdfs, try_catch.
  destruct (listPdfs_try PDF_DIR localeCompare fs) as [snap|e]; eauto.
Qed.

(** C3.  When the enumeration of the watched directory fails (the
    directory is missing or unreadable, so [readdirSync] throws), the
    scan returns the empty snapshot and throws nothing. *)
Theorem scan_empty_when_enumeration_fails (e : Error) :
  readdirSync fs PDF_DIR = Throw e ->
  listPdfs PDF_DIR localeCompare fs = Ok [].
Proof.
  intros H. unfold listPdfs, listPdfs_try. now rewrite H.
Qed.

(** C1, as the code has it.  When the enumeration succeeds and
    [statSync] throws for some listed entry that ends in [.pdf], the
    exception reaches the one [catch] of [listPdfs]: the scan throws
    nothing and returns the empty snapshot, without the entries whose
    metadata could be read. *)
Theorem scan_empty_when_stat_fails (files : list string) (bad : string)
        (e : Error) :
  readdirSync fs PDF_DIR = Ok files ->
  In bad files ->
  endsWith bad ".pdf" = true ->
  statSync fs (Path.join [PDF_DIR; bad]) = Throw e ->
  listPdfs PDF_DIR localeCompare fs = Ok [].
Proof.
  intros Hdir Hin Hpdf Hstat.
  unfold listPdfs, listPdfs_try. rewrite Hdir. simpl.
  destruct (mapE_throw (describe PDF_DIR fs)
              (filter (fun f => endsWith f ".pdf") files) bad e)
    as [e' ->]; [| |reflexivity].
  - apply filter_In. now split.
  - unfold describe. now rewrite Hstat.
Qed.

(** C2, as the code has it.  When the enumeration succeeds, the
    metadata of every listed entry that ends in [.pdf] can be read and
    the listing holds no name twice, the scan returns a snapshot that
    is sorted by name in the order of [localeCompare] (a consistent
    comparator: total and transitive), holds no name twice, and whose
    names are exactly the listed names that end in [.pdf]. *)
Theorem scan_sorted_exact (files : list string) :
  readdirSync fs PDF_DIR = Ok files ->
  (forall f, In f files -> endsWith f ".pdf" = true ->
             exists st, statSync fs (Path.join [PDF_DIR; f]) = Ok st) ->
  NoDup files ->
  (forall a b, (localeCompare a b <= 0 \/ localeCompare b a <= 0)%Z) ->
  (forall a b c, (localeCompare a b <= 0 -> localeCompare b c <= 0 ->
                  localeCompare a c <= 0)%Z) ->
  exists snap,
    listPdfs PDF_DIR localeCompare fs = Ok snap
    /\ StronglySorted
         (fun a b => (localeCompare (name a) (name b) <= 0)%Z) snap
    /\ NoDup (map name snap)
    /\ Permutation (map name snap) (filter (fun f => endsWith f ".pdf") files)
    /\ snapshotExact files snap.
Proof.
  intros Hdir Hstat Hnodup Htotal Htrans.
  set (pdfs := filter (fun f => endsWith f ".pdf") files).
  destruct (mapE_ok (describe PDF_DIR fs) pdfs) as (entries & Hmap & Hrel).
  { intros f Hf. apply filter_In in Hf. destruct Hf as [Hin Hpdf].
    destruct (Hstat f Hin Hpdf) as [st Hst].
    unfold describe. rewrite Hst. simpl. eauto. }
  set (cmp := fun a b : PdfFile => localeCompare (name a) (name b)).
  exists (sort cmp entries).
  assert (Hperm : Permutation (map name (sort cmp entries)) pdfs).
  { rewrite <- (described_names _ _ Hrel).
    apply Permutation_map, sort_perm. }
  split; [|split; [|split; [|split]]].
  - unfold listPdfs, listPdfs_try. rewrite Hdir. simpl.
    fold pdfs. rewrite Hmap. reflexivity.
  - apply sort_sorted; unfold cmp; intros; eauto.
  - eapply Permutation_NoDup; [symmetry; exact Hperm|].
    now apply NoDup_filter.
  - exact Hperm.
  - intros f. split; intros H.
    + apply (Permutation_in _ Hperm) in H. now apply filter_In in H.
    + apply (Permutation_in _ (Permutation_sym Hperm)). now apply filter_In.
Qed.

End ScannerFacts.

(** With the enumeration failing, the scan is empty. *)
Lemma scan_empty_when_enumeration_fails_witness :
  listPdfs "./pdfs" compareCodeUnits disk_missing_dir = Ok [].
Proof.
  apply (scan_empty_when_enumeration_fails
           "./pdfs" compareCodeUnits disk_missing_dir "ENOENT").
  reflexivity.
Defined.

(** One dangling link empties the snapshot. *)
Lemma scan_empty_when_stat_fails_witness :
  listPdfs "./pdfs" compareCodeUnits disk_broken_entry = Ok [].
Proof.
  apply (scan_empty_when_stat_fails
           "./pdfs" compareCodeUnits disk_broken_entry
           ["a.pdf"; "broken.pdf"] "broken.pdf" "ENOENT").
  - reflexivity.
  - simpl. auto.
  - reflexivity.
  - reflexivity.
Defined.

(** C1 fails on the code: [./pdfs] lists [a.pdf] and [broken.pdf],
    [statSync] succeeds on the first and throws on the second only, and
    the snapshot is empty: [a.pdf] is excluded too. *)
Lemma scan_loses_healthy_entries :
  readdirSync disk_broken_entry "./pdfs" = Ok ["a.pdf"; "broken.pdf"]
  /\ statSync disk_broken_entry (Path.join ["./pdfs"; "a.pdf"])
     = Ok (stats_at 2000)
  /\ statSync disk_broken_entry (Path.join ["./pdfs"; "broken.pdf"])
     = Throw "ENOENT"
  /\ listPdfs "./pdfs" compareCodeUnits disk_broken_entry = Ok []
  /\ listPdfs "./pdfs" compareCodeUnits disk_broken_entry
     <> Ok [ {| name := "a.pdf"; path := "pdfs/a.pdf";
                modified := mtimeMs (stats_at 2000) |} ].
Proof.
  repeat split; try reflexivity. discriminate.
Qed.

(** C2 fails on the code: on the same disk [a.pdf] is listed and ends in
    [.pdf], and the snapshot does not hold it. *)
Lemma scan_not_exact_when_stat_fails :
  exists files snap,
    readdirSync disk_broken_entry "./pdfs" = Ok files
    /\ listPdfs "./pdfs" compareCodeUnits disk_broken_entry = Ok snap
    /\ ~ snapshotExact files snap.
Proof.
  exists ["a.pdf"; "broken.pdf"], [].
  repeat split; try reflexivity.
  intros H. destruct (H "a.pdf") as [_ Hin].
  apply Hin. split; [simpl; auto | reflexivity].
Qed.

(** The scan of a healthy directory. *)
Lemma scan_sorted_exact_witness :
  exists snap,
    listPdfs "./pdfs" compareCodeUnits disk_two_pdfs = Ok snap
    /\ StronglySorted
         (fun a b => (compareCodeUnits (name a) (name b) <= 0)%Z) snap
    /\ NoDup (map name snap)
    /\ Permutation (map name snap)
         (filter (fun f => endsWith f ".pdf") ["b.pdf"; "notes.txt"; "a.pdf"])
    /\ snapshotExact ["b.pdf"; "notes.txt"; "a.pdf"] snap.
Proof.
  apply (scan_sorted_exact "./pdfs" compareCodeUnits disk_two_pdfs).
  - reflexivity.
  - intros f [<-|[<-|[<-|[]]]] _; eexists; reflexivity.
  - repeat constructor; simpl; intuition discriminate.
  - apply compareCodeUnits_total.
  - apply compareCodeUnits_trans.
Defined.

Example scan_two_pdfs :
  listPdfs "./pdfs" compareCodeUnits disk_two_pdfs
  = Ok [ {| name := "a.pdf"; path := "pdfs/a.pdf";
            modified := mtimeMs (stats_at 2000) |};
         {| name := "b.pdf"; path := "pdfs/b.pdf";
            modified := mtimeMs (stats_at 1000) |} ].
Proof. reflexivity. Qed.

(* ================================================================== *)
(** * The clients set *)
(* ================================================================== *)

Section RegistryFacts.

Lemma set_add_NoDup (ws : WebSocket) (s : list WebSocket) :
  NoDup s -> NoDup (set_add ws s).
Proof.
  intros H. unfold set_add.
  destruct (existsb (Nat.eqb ws) s) eqn:E; [exact H|].
  apply NoDup_app; [exact H | repeat constructor; intros [] |].
  intros x Hx [->|[]].
  assert (existsb (Nat.eqb x) s = true); [|congruence].
  apply existsb_exists. exists x. split; [exact Hx | apply Nat.eqb_refl].
Qed.

Lemma set_delete_NoDup (ws : WebSocket) (s : list WebSocket) :
  NoDup s -> NoDup (set_delete ws s).
Proof. apply NoDup_filter. Qed.

(** Removing a connection that is not registered changes nothing. *)
Lemma set_delete_absent (ws : WebSocket) (s : list WebSocket) :
  ~ In ws s -> set_delete ws s = s.
Proof.
  unfold set_delete. induction s as [|x s IH]; intros H; [reflexivity|].
  simpl. destruct (Nat.eqb_spec ws x) as [->|_].
  - exfalso. apply H. now left.
  - simpl. rewrite IH; [reflexivity|]. intros Hin. apply H. now right.
Qed.

End RegistryFacts.

(* ================================================================== *)
(** * Broadcasts *)
(* ================================================================== *)

Section BroadcastFacts.

Variable net : Network.
Variable msg : Message.


(** When every [send] returns, [forEach] reaches every client. *)
Lemma forEach_send_returns (cs : list WebSocket) : forall w,
    (forall ws, In ws cs -> exists st, net ws msg = Ok st) ->
    forEach cs (fun ws => ws_send net ws msg) w
    = (Ok tt, {| clients := clients w;
                 output := output w ++ map (sent net msg) cs |}).
Proof.
  induction cs as [|x cs IH]; intros w Hret.
  - destruct w. simpl. now rewrite app_nil_r.
  - destruct (Hret x (or_introl eq_refl)) as [st Hst].
    cbn [forEach]. unfold bindM at 1, ws_send at 1. rewrite Hst.
    rewrite IH by (intros ws Hws; apply Hret; now right).
    cbn [map clients output]. rewrite <- app_assoc.
    unfold sent, sendStatus. now rewrite Hst.
Qed.

(** A [send] that throws ends [forEach]: the clients after it are not
    reached, and the exception leaves the loop. *)
Lemma forEach_send_throws (before after : list WebSocket) (bad : WebSocket)
      (e : Error) : forall w,
    (forall ws, In ws before -> exists st, net ws msg = Ok st) ->
    net bad msg = Throw e ->
    forEach (before ++ bad :: after) (fun ws => ws_send net ws msg) w
    = (Throw e, {| clients := clients w;
                   output := output w ++ map (sent net msg) before |}).
Proof.
  induction before as [|x before IH]; intros w Hret Hbad.
  - destruct w. simpl. unfold bindM, ws_send. rewrite Hbad.
    simpl. now rewrite app_nil_r.
  - destruct (Hret x (or_introl eq_refl)) as [st Hst].
    change ((x :: before) ++ bad :: after)%list
      with (x :: (before ++ bad :: after))%list.
    cbn [forEach]. unfold bindM at 1, ws_send at 1. rewrite Hst.
    rewrite IH by (try assumption; intros ws Hws; apply Hret; now right).
    cbn [map clients output]. rewrite <- app_assoc.
    unfold sent, sendStatus. now rewrite Hst.
Qed.

Lemma sentTo_app (ws : WebSocket) (a b : list Effect) :
  sentTo ws (a ++ b) = (sentTo ws a ++ sentTo ws b)%list.
Proof.
  induction a as [|[line|ws' m st] a IH]; simpl; [reflexivity | exact IH |].
  destruct (Nat.eqb ws ws'); simpl; now rewrite IH.
Qed.

Lemma sentTo_absent (ws : WebSocket) (cs : list WebSocket) :
  ~ In ws cs -> sentTo ws (map (sent net msg) cs) = [].
Proof.
  induction cs as [|x cs IH]; intros H; [reflexivity|].
  simpl. destruct (Nat.eqb_spec ws x) as [->|_].
  - exfalso. apply H. now left.
  - apply IH. intros Hin. apply H. now right.
Qed.

(** One broadcast over a set sends each client one message. *)
Lemma sentTo_member (ws : WebSocket) (cs : list WebSocket) :
  NoDup cs -> In ws cs -> sentTo ws (map (sent net msg) cs) = [msg].
Proof.
  induction 1 as [|x cs Hx Hcs IH]; intros Hin; [contradiction|].
  simpl. destruct (Nat.eqb_spec ws x) as [->|Hne].
  - now rewrite sentTo_absent.
  - destruct Hin as [->|Hin]; [congruence | now apply IH].
Qed.

Lemma sends_map (cs : list WebSocket) : sends (map (sent net msg) cs) = map (sent net msg) cs.
Proof.
  unfold sends. induction cs as [|x cs IH]; simpl; [reflexivity|].
  now rewrite IH.
Qed.

End BroadcastFacts.

(* ================================================================== *)
(** * The change reaction *)
(* ================================================================== *)

Section EngineFacts.

Variable PDF_DIR : string.
Variable localeCompare : string -> string -> Z.
Variable fs : FileSystem.
Variable net : Network.

Lemma broadcastPdfs_returns (w : World) (snap : list PdfFile) :
  listPdfs PDF_DIR localeCompare fs = Ok snap ->
  (forall ws, In ws (clients w) ->
              exists st, net ws (PdfsUpdated snap) = Ok st) ->
  broadcastPdfs PDF_DIR localeCompare fs net w
  = (Ok tt, {| clients := clients w;
               output := output w
                         ++ map (sent net (PdfsUpdated snap)) (clients w) |}).
Proof.
  intros Hscan Hret.
  unfold broadcastPdfs, bindM, liftE, getClients. rewrite Hscan.
  now apply forEach_send_returns.
Qed.

(** The whole reaction to a notification for a [.pdf] name, when no
    [send] throws: one console line, the list to every client, then
    the name to every client. *)
Lemma onWatch_output (event : WatchEventType) (filename : string)
      (w : World) (snap : list PdfFile) :
  endsWith filename ".pdf" = true ->
  listPdfs PDF_DIR localeCompare fs = Ok snap ->
  (forall ws msg, In ws (clients w) -> exists st, net ws msg = Ok st) ->
  onWatch PDF_DIR localeCompare fs net event (Some filename) w
  = (Ok tt,
     {| clients := clients w;
        output := output w
          ++ ConsoleLog ("[watch] " ++ eventName event ++ ": " ++ filename)
          :: map (sent net (PdfsUpdated snap)) (clients w)
          ++ map (sent net (PdfChanged filename)) (clients w) |}).
Proof.
  intros Hpdf Hscan Hret.
  unfold onWatch. rewrite Hpdf.
  unfold bindM at 1. unfold console_log, emit.
  unfold bindM at 1.
  rewrite (broadcastPdfs_returns _ snap Hscan)
    by (intros ws Hws; now apply Hret).
  unfold bindM, getClients. cbn [clients output].
  rewrite forEach_send_returns by (intros ws Hws; now apply Hret).
  cbn [clients output]. now rewrite <- !app_assoc.
Qed.

Lemma sentTo_reaction (line : string) (m1 m2 : Message)
      (cs : list WebSocket) (ws : WebSocket) :
  NoDup cs -> In ws cs ->
  sentTo ws (ConsoleLog line :: map (sent net m1) cs ++ map (sent net m2) cs)
  = [m1; m2].
Proof.
  intros Hnd Hin. cbn [sentTo].
  now rewrite sentTo_app, !sentTo_member.
Qed.

(** C6, as the code has it.  For a notification whose filename ends in
    [.pdf], in a reaction where every [send] returns: the scan is
    computed, and each registered client is sent exactly two messages,
    first [pdfs-updated] carrying that scan, then [pdf-changed]
    carrying the filename.  The [send] calls are, in order, the list to
    every client and then the name to every client. *)
Theorem reaction_sends_list_then_file (event : WatchEventType)
        (filename : string) (w : World) :
  endsWith filename ".pdf" = true ->
  NoDup (clients w) ->
  (forall ws msg, In ws (clients w) -> exists st, net ws msg = Ok st) ->
  exists snap new,
    listPdfs PDF_DIR localeCompare fs = Ok snap
    /\ onWatch PDF_DIR localeCompare fs net event (Some filename) w
       = (Ok tt, {| clients := clients w; output := output w ++ new |})
    /\ sends new
       = (map (sent net (PdfsUpdated snap)) (clients w)
          ++ map (sent net (PdfChanged filename)) (clients w))%list
    /\ forall ws, In ws (clients w) ->
                  sentTo ws new = [PdfsUpdated snap; PdfChanged filename].
Proof.
  intros Hpdf Hnd Hret.
  destruct (listPdfs_returns PDF_DIR localeCompare fs) as [snap Hscan].
  exists snap. eexists. split; [exact Hscan|]. split; [|split].
  - apply (onWatch_output event filename w snap); assumption.
  - unfold sends. cbn [filter]. fold (sends
      (map (sent net (PdfsUpdated snap)) (clients w)
       ++ map (sent net (PdfChanged filename)) (clients w))).
    unfold sends. now rewrite filter_app, !(sends_map net).
  - intros ws Hws. now apply sentTo_reaction.
Qed.

(** C7.  A notification whose filename does not end in [.pdf] changes
    nothing: no [send], no console line, the same clients. *)
Theorem reaction_ignores_other_names (event : WatchEventType)
        (filename : string) (w : World) :
  endsWith filename ".pdf" = false ->
  onWatch PDF_DIR localeCompare fs net event (Some filename) w = (Ok tt, w).
Proof.
  intros H. unfold onWatch. now rewrite H.
Qed.

(** C9.  A notification without a filename changes nothing: no [send],
    no console line, the same clients, whatever is on the disk. *)
Theorem reaction_ignores_null_filename (event : WatchEventType) (w : World) :
  onWatch PDF_DIR localeCompare fs net event None w = (Ok tt, w).
Proof. reflexivity. Qed.

(** C10.  The name of [pdf-changed] is the filename of the
    notification, whatever the scan found: when the filename ends in
    [.pdf] and is not among the names of the scan (the file was
    deleted), each registered client is still sent [pdfs-updated] with
    that scan and then [pdf-changed] with the filename, and every
    [pdf-changed] of the reaction carries the filename. *)
Theorem file_change_name_unchecked (event : WatchEventType)
        (filename : string) (w : World) (snap : list PdfFile) :
  endsWith filename ".pdf" = true ->
  listPdfs PDF_DIR localeCompare fs = Ok snap ->
  ~ In filename (map name snap) ->
  NoDup (clients w) ->
  (forall ws msg, In ws (clients w) -> exists st, net ws msg = Ok st) ->
  exists new,
    onWatch PDF_DIR localeCompare fs net event (Some filename) w
    = (Ok tt, {| clients := clients w; output := output w ++ new |})
    /\ (forall ws, In ws (clients w) ->
                   sentTo ws new = [PdfsUpdated snap; PdfChanged filename])
    /\ (forall ws n st, In (WsSend ws (PdfChanged n) st) new -> n = filename).
Proof.
  intros Hpdf Hscan _ Hnd Hret.
  eexists. split; [|split].
  - apply (onWatch_output event filename w snap); assumption.
  - intros ws Hws. now apply sentTo_reaction.
  - intros ws n st [H|H]; [discriminate|].
    apply in_app_or in H. destruct H as [H|H];
      apply in_map_iff in H; destruct H as (x & Hx & _);
      unfold sent in Hx; congruence.
Qed.

(** C8, as the code has it.  In [clients.forEach(ws => ws.send(msg))]
    the value [send] returns is ignored: when every [send] returns, be
    it a failure status ([0], dropped), every client is sent the
    message, each with the status of its own connection, and nothing is
    thrown.  There is no [try]: when a [send] throws, the clients after
    it are not sent the message and the exception reaches the caller. *)
Theorem broadcast_failure_modes (msg : Message) (w : World) :
  ((forall ws, In ws (clients w) -> exists st, net ws msg = Ok st) ->
   forEach (clients w) (fun ws => ws_send net ws msg) w
   = (Ok tt, {| clients := clients w;
                output := output w ++ map (sent net msg) (clients w) |}))
  /\ (forall before bad after e,
         clients w = (before ++ bad :: after)%list ->
         (forall ws, In ws before -> exists st, net ws msg = Ok st) ->
         net bad msg = Throw e ->
         forEach (clients w) (fun ws => ws_send net ws msg) w
         = (Throw e, {| clients := clients w;
                        output := output w ++ map (sent net msg) before |})).
Proof.
  split.
  - apply forEach_send_returns.
  - intros before bad after e Hcs Hret Hbad.
    rewrite Hcs at 1. now apply forEach_send_throws.
Qed.

End EngineFacts.

(** Two clients, a change of [b.pdf]: both get the list, then the name. *)
Lemma reaction_sends_list_then_file_witness :
  exists snap new,
    listPdfs "./pdfs" compareCodeUnits disk_two_pdfs = Ok snap
    /\ onWatch "./pdfs" compareCodeUnits disk_two_pdfs net_ok change
         (Some "b.pdf") two_clients
       = (Ok tt, {| clients := clients two_clients;
                    output := output two_clients ++ new |})
    /\ sends new
       = (map (sent net_ok (PdfsUpdated snap)) (clients two_clients)
          ++ map (sent net_ok (PdfChanged "b.pdf")) (clients two_clients))%list
    /\ forall ws, In ws (clients two_clients) ->
                  sentTo ws new = [PdfsUpdated snap; PdfChanged "b.pdf"].
Proof.
  apply (reaction_sends_list_then_file
           "./pdfs" compareCodeUnits disk_two_pdfs net_ok change "b.pdf"
           two_clients).
  - reflexivity.
  - repeat constructor; simpl; intuition discriminate.
  - intros ws msg _. exists 1%Z. reflexivity.
Defined.

Example reaction_two_clients :
  onWatch "./pdfs" compareCodeUnits disk_empty_dir net_ok rename
    (Some "new.pdf") two_clients
  = (Ok tt,
     {| clients := [1; 2];
        output := [ ConsoleLog "[watch] rename: new.pdf";
                    WsSend 1 (PdfsUpdated []) 1; WsSend 2 (PdfsUpdated []) 1;
                    WsSend 1 (PdfChanged "new.pdf") 1;
                    WsSend 2 (PdfChanged "new.pdf") 1 ] |}).
Proof. reflexivity. Qed.

(** C6 fails on the code: client [2] is registered and [send] on its
    connection would succeed, the filename ends in [.pdf], and the
    reaction sends it neither message: [send] throws on client [1],
    which ends the first [forEach] and the callback. *)
Lemma reaction_leaves_observer_unserved :
  endsWith "a.pdf" ".pdf" = true
  /\ In 2 (clients two_clients)
  /\ net_throwing 1 2 (PdfsUpdated []) = Ok 1%Z
  /\ net_throwing 1 2 (PdfChanged "a.pdf") = Ok 1%Z
  /\ onWatch "./pdfs" compareCodeUnits disk_empty_dir (net_throwing 1) change
       (Some "a.pdf") two_clients
     = (Throw "send failed",
        {| clients := [1; 2];
           output := [ConsoleLog "[watch] change: a.pdf"] |})
  /\ sentTo 2 (output (snd (onWatch "./pdfs" compareCodeUnits disk_empty_dir
                              (net_throwing 1) change (Some "a.pdf")
                              two_clients)))
     = [].
Proof. repeat split; try reflexivity. simpl. auto. Qed.

(** A change of [notes.txt] is ignored. *)
Lemma reaction_ignores_other_names_witness :
  onWatch "./pdfs" compareCodeUnits disk_two_pdfs net_ok change
    (Some "notes.txt") two_clients
  = (Ok tt, two_clients).
Proof.
  apply (reaction_ignores_other_names
           "./pdfs" compareCodeUnits disk_two_pdfs net_ok change "notes.txt"
           two_clients).
  reflexivity.
Defined.

Example reaction_ignores_upper_case :
  onWatch "./pdfs" compareCodeUnits disk_two_pdfs net_ok change
    (Some "A.PDF") two_clients
  = (Ok tt, two_clients).
Proof. reflexivity. Qed.

(** [gone.pdf] was deleted: the clients get the list without it, then
    its name. *)
Lemma file_change_name_unchecked_witness :
  exists new,
    onWatch "./pdfs" compareCodeUnits disk_after_deletion net_ok rename
      (Some "gone.pdf") two_clients
    = (Ok tt, {| clients := clients two_clients;
                 output := output two_clients ++ new |})
    /\ (forall ws, In ws (clients two_clients) ->
          sentTo ws new
          = [PdfsUpdated [ {| name := "a.pdf"; path := "pdfs/a.pdf";
                              modified := mtimeMs (stats_at 2000) |} ];
             PdfChanged "gone.pdf"])
    /\ (forall ws n st, In (WsSend ws (PdfChanged n) st) new -> n = "gone.pdf").
Proof.
  apply (file_change_name_unchecked
           "./pdfs" compareCodeUnits disk_after_deletion net_ok rename
           "gone.pdf" two_clients).
  - reflexivity.
  - reflexivity.
  - simpl. intros [H|[]]. discriminate.
  - repeat constructor; simpl; intuition discriminate.
  - intros ws msg _. exists 1%Z. reflexivity.
Defined.

(** A closed connection among the clients: its [send] returns [0], and
    the other client is sent the message all the same. *)
Lemma broadcast_failure_modes_witness :
  forEach (clients two_clients)
    (fun ws => ws_send (net_dropping 1) ws (PdfChanged "a.pdf")) two_clients
  = (Ok tt,
     {| clients := [1; 2];
        output := [ WsSend 1 (PdfChanged "a.pdf") 0;
                    WsSend 2 (PdfChanged "a.pdf") 1 ] |}).
Proof.
  destruct (broadcast_failure_modes (net_dropping 1) (PdfChanged "a.pdf")
              two_clients) as [Hreturns _].
  rewrite Hreturns.
  - reflexivity.
  - intros ws [<-|[<-|[]]]; eexists; reflexivity.
Defined.

(** C8 fails on the code: with clients [1] and [2], when [send] throws
    on connection [1] (and would succeed on [2]), [broadcastPdfs] throws
    to its caller and nothing was sent to [2]; the reaction of the
    [watch] callback ends the same way. *)
Lemma broadcast_stops_at_throwing_send :
  net_throwing 1 2 (PdfsUpdated []) = Ok 1%Z
  /\ broadcastPdfs "./pdfs" compareCodeUnits disk_empty_dir (net_throwing 1)
       two_clients
     = (Throw "send failed", two_clients)
  /\ sentTo 2 (output (snd (broadcastPdfs "./pdfs" compareCodeUnits
                              disk_empty_dir (net_throwing 1) two_clients)))
     = []
  /\ fst (onWatch "./pdfs" compareCodeUnits disk_empty_dir (net_throwing 1)
            change (Some "a.pdf") two_clients)
     = Throw "send failed".
Proof. repeat split; reflexivity. Qed.

(* ================================================================== *)
(** * The file gateway *)
(* ================================================================== *)

Section GatewayFacts.

Variable PDF_DIR : string.
Variable decodeURIComponent : string -> Exc string.
Variable fs : FileSystem.

Lemma invalidName_iff (name : string) :
  invalidName name = true
  <-> endsWith name ".pdf" = false
      \/ includes name "/" = true
      \/ includes name ".." = true.
Proof.
  unfold invalidName.
  rewrite !orb_true_iff, negb_true_iff. tauto.
Qed.

(** The outcomes of the route on a parameter that decodes: a line is
    logged and a response returned, or the exception of the existence
    check leaves the handler before anything is logged. *)
Lemma apiPdf_cases (param name : string) (w : World) :
  decodeURIComponent param = Ok name ->
  apiPdf PDF_DIR decodeURIComponent fs param w
  = if invalidName name then
      (Ok {| status := 400; body := TextBody "Invalid file"; headers := [] |},
       {| clients := clients w;
          output := output w
            ++ [ConsoleLog ("[serve] Rejected invalid file request: " ++ name)] |})
    else
      match fileExists fs (Path.join [PDF_DIR; name]) with
      | Ok true =>
          (Ok {| status := 200; body := FileBody (Path.join [PDF_DIR; name]);
                 headers := [("Content-Type", "application/pdf")] |},
           {| clients := clients w;
              output := output w
                ++ [ConsoleLog ("[serve] Serving PDF to client: " ++ name)] |})
      | Ok false =>
          (Ok {| status := 404; body := TextBody "Not found"; headers := [] |},
           {| clients := clients w;
              output := output w
                ++ [ConsoleLog ("[serve] File not found: " ++ name)] |})
      | Throw e => (Throw e, w)
      end.
Proof.
  intros Hdec. unfold apiPdf, bindM at 1, liftE. rewrite Hdec.
  destruct (invalidName name); [reflexivity|].
  unfold bindM at 1.
  destruct (fileExists fs (Path.join [PDF_DIR; name])) as [[|]|e];
    reflexivity.
Qed.

Lemma apiPdf_decode_throws (param : string) (w : World) (e : Error) :
  decodeURIComponent param = Throw e ->
  apiPdf PDF_DIR decodeURIComponent fs param w = (Throw e, w).
Proof.
  intros Hdec. unfold apiPdf, bindM at 1, liftE. now rewrite Hdec.
Qed.

(** C4, as the code has it.  The handler applies [decodeURIComponent]
    to the parameter the router hands over; when that throws, the
    handler throws.  Otherwise, with [name] the decoded parameter:
    the answer is 400 exactly when [name] does not end in [.pdf], or
    holds [/], or holds [..]; it is 404 exactly when [name] passes
    these checks and the existence check at [join(PDF_DIR, name)]
    returns false; it is 200 exactly when [name] passes and the check
    returns true, and the response then carries that file's bytes with
    the content type [application/pdf]; and the handler throws, giving
    no response, exactly when [name] passes and [Bun.file] or [exists]
    throws. *)
Theorem gateway_response (param : string) (w : World) :
  (forall e, decodeURIComponent param = Throw e ->
             apiPdf PDF_DIR decodeURIComponent fs param w = (Throw e, w))
  /\ (forall name, decodeURIComponent param = Ok name ->
        let run := apiPdf PDF_DIR decodeURIComponent fs param w in
        let filePath := Path.join [PDF_DIR; name] in
        ((exists resp w', run = (Ok resp, w') /\ status resp = 400%Z)
         <-> endsWith name ".pdf" = false
             \/ includes name "/" = true
             \/ includes name ".." = true)
        /\ ((exists resp w', run = (Ok resp, w') /\ status resp = 404%Z)
            <-> invalidName name = false /\ fileExists fs filePath = Ok false)
        /\ ((exists resp w', run = (Ok resp, w') /\ status resp = 200%Z)
            <-> invalidName name = false /\ fileExists fs filePath = Ok true)
        /\ (forall resp w', run = (Ok resp, w') -> status resp = 200%Z ->
              body resp = FileBody filePath
              /\ headers resp = [("Content-Type", "application/pdf")]
              /\ exists bytes,
                   fileContents fs filePath = Ok (Some bytes)
                   /\ bodyBytes fs (body resp) = Some bytes)
        /\ (forall e, fst run = Throw e
                      <-> invalidName name = false
                          /\ fileExists fs filePath = Throw e)).
Proof.
  split; [intros e; apply apiPdf_decode_throws|].
  intros name Hdec run filePath. subst run filePath.
  rewrite (apiPdf_cases param name w Hdec), <- invalidName_iff.
  unfold fileExists, bodyBytes.
  destruct (invalidName name);
    [|destruct (fileContents fs (Path.join [PDF_DIR; name]))
        as [[bytes|]|e0] eqn:E].
  all: split; [|split; [|split; [|split]]].
  all: try (split; [intros (resp & w' & Heq & Hst)|intros H]).
  all: try (intros resp w' Heq Hst).
  all: try (intros e; split; [intros Heq|intros H]).
  all: try (injection Heq as <- <-); try discriminate.
  all: try (now destruct H).
  all: try tauto.
  all: try (simpl in *; congruence).
  all: try (do 2 eexists; split; reflexivity).
  - cbn [body headers]. rewrite E. repeat split. now exists bytes.
  - simpl in Heq. injection Heq as ->. now split.
  - destruct H as [_ H]. injection H as ->. reflexivity.
Qed.

(** C5.  For every name the route accepts (it ends in [.pdf] and holds
    neither [/] nor [..]), the path [join(PDF_DIR, name)] is the
    watched root followed by one more segment, the name itself: it is
    absolute exactly when the root is, its normalised segments are
    those of the root and then [name], and [name] is a plain segment
    (not empty, [.] or [..], and without separator).  So the path
    names an entry of the watched directory. *)
Theorem accepted_name_stays_in_root (name : string) :
  invalidName name = false ->
  Path.isAbsolute (Path.join [PDF_DIR; name]) = Path.isAbsolute PDF_DIR
  /\ Path.segments (Path.join [PDF_DIR; name])
     = (Path.segments PDF_DIR ++ [name])%list
  /\ Path.isName name = true
  /\ Path.noSlash name.
Proof.
  intros Hok.
  destruct (accepted_name name Hok) as (_ & Hslash & Hname).
  destruct (segments_shape PDF_DIR) as [Hnf Hsegs].
  rewrite (join_accepted PDF_DIR name Hok).
  destruct (segments_written (Path.isAbsolute PDF_DIR)
              (Path.segments PDF_DIR ++ [name])) as [Habs Hback].
  - now destruct (Path.segments PDF_DIR).
  - now apply normalForm_snoc.
  - apply Forall_app. split; [exact Hsegs | now constructor].
  - now repeat split.
Qed.

End GatewayFacts.

(** [a.pdf] is served. *)
Lemma gateway_response_witness :
  exists resp w',
    apiPdf "./pdfs" decode_plain disk_two_pdfs "a.pdf" two_clients
    = (Ok resp, w')
    /\ status resp = 200%Z.
Proof.
  destruct (gateway_response "./pdfs" decode_plain disk_two_pdfs "a.pdf"
              two_clients) as [_ Hname].
  destruct (Hname "a.pdf" eq_refl) as (_ & _ & H200 & _).
  apply H200. split; reflexivity.
Defined.

(** C4 fails on the code: the name [a], NUL, [.pdf] passes the three
    checks, the parameter decodes to it, and the route answers neither
    400 nor 404 nor 200: [Bun.file(...).exists()] throws and the
    exception leaves the handler.  So does the [URIError] of the
    handler's own decoding for the requested name [100%.pdf]. *)
Lemma gateway_throws_for_accepted_name :
  decode_plain nul_name = Ok nul_name
  /\ endsWith nul_name ".pdf" = true
  /\ includes nul_name "/" = false
  /\ includes nul_name ".." = false
  /\ apiPdf "./pdfs" decode_plain disk_two_pdfs nul_name two_clients
     = (Throw "path holds a NUL byte", two_clients)
  /\ apiPdf "./pdfs" decode_plain disk_two_pdfs "100%.pdf" two_clients
     = (Throw "URIError", two_clients).
Proof. repeat split; reflexivity. Qed.

(** [report.pdf] under [./pdfs]. *)
Lemma accepted_name_stays_in_root_witness :
  Path.isAbsolute (Path.join ["./pdfs"; "report.pdf"]) = Path.isAbsolute "./pdfs"
  /\ Path.segments (Path.join ["./pdfs"; "report.pdf"])
     = (Path.segments "./pdfs" ++ ["report.pdf"])%list
  /\ Path.isName "report.pdf" = true
  /\ Path.noSlash "report.pdf".
Proof.
  apply (accepted_name_stays_in_root "./pdfs" "report.pdf").
  reflexivity.
Defined.

Example serve_existing :
  fst (apiPdf "./pdfs" decode_plain disk_two_pdfs "a.pdf" two_clients)
  = Ok {| status := 200; body := FileBody "pdfs/a.pdf";
          headers := [("Content-Type", "application/pdf")] |}.
Proof. reflexivity. Qed.

Example serve_traversal :
  fst (apiPdf "./pdfs" decode_plain disk_two_pdfs "../secret.pdf" two_clients)
  = Ok {| status := 400; body := TextBody "Invalid file"; headers := [] |}.
Proof. reflexivity. Qed.

Example serve_missing :
  fst (apiPdf "./pdfs" decode_plain disk_two_pdfs "missing.pdf" two_clients)
  = Ok {| status := 404; body := TextBody "Not found"; headers := [] |}.
Proof. reflexivity. Qed.

Example serve_wrong_extension :
  fst (apiPdf "./pdfs" decode_plain disk_two_pdfs "notes.txt" two_clients)
  = Ok {| status := 400; body := TextBody "Invalid file"; headers := [] |}.
Proof. reflexivity. Qed.
Example join_plain : Path.join ["./pdfs"; "a.pdf"] = "pdfs/a.pdf".
Proof. reflexivity. Qed.

Example join_absolute : Path.join ["/srv//docs/"; "a.pdf"] = "/srv/docs/a.pdf".
Proof. reflexivity. Qed.

Example join_dotdot : Path.join ["/srv/docs"; "../secret.pdf"] = "/srv/secret.pdf".
Proof. reflexivity. Qed.

Example join_relative_up : Path.join ["../x/.."; "a.pdf"] = "../a.pdf".
Proof. reflexivity. Qed.

Example normalize_dot_slash : Path.normalize "./" = "./".
Proof. reflexivity. Qed.

Example endsWith_pdf : endsWith "report.pdf" ".pdf" = true.
Proof. reflexivity. Qed.

Example endsWith_case : endsWith "REPORT.PDF" ".pdf" = false.
Proof. reflexivity. Qed.

Example endsWith_short : endsWith "pdf" ".pdf" = false.
Proof. reflexivity. Qed.

Example includes_dotdot : includes "a..b.pdf" ".." = true.
Proof. reflexivity. Qed.

(* ================================================================== *)
(** * More on the directory scan *)
(* ================================================================== *)

Section ListFacts.

Context {A B : Type}.

Lemma mapE_inv (f : A -> Exc B) (l : list A) : forall ys,
    mapE f l = Ok ys -> Forall2 (fun x y => f x = Ok y) l ys.
Proof.
induction l as [|x l IH]; simpl; intros ys H.
- injection H as <-. constructor.
- destruct (f x) as [y|e] eqn:Ex; simpl in H; [|discriminate].
  destruct (mapE f l) as [ys'|e]; simpl in H; [|discriminate].
  injection H as <-. constructor; [exact Ex | now apply IH].
Qed.

Lemma mapE_of_Forall2 (f : A -> Exc B) (l : list A) (ys : list B) :
  Forall2 (fun x y => f x = Ok y) l ys -> mapE f l = Ok ys.
Proof.
induction 1 as [|x y l ys Hx _ IH]; simpl; [reflexivity|].
now rewrite Hx, IH.
Qed.

Lemma mapE_throw_inv (f : A -> Exc B) (l : list A) (e : Error) :
  mapE f l = Throw e -> exists x e', In x l /\ f x = Throw e'.
Proof.
revert e. induction l as [|x l IH]; intros e; simpl; [discriminate|].
destruct (f x) as [y|e0] eqn:Ex; simpl.
- destruct (mapE f l) as [ys|e1]; simpl; [discriminate|].
  intros _. destruct (IH e1 eq_refl) as (z & e' & Hz & Hfz).
  exists z, e'. split; [now right | exact Hfz].
- intros _. exists x, e0. split; [now left | exact Ex].
Qed.

Lemma Forall2_in_r (R : A -> B -> Prop) (l : list A) (ys : list B) (y : B) :
  Forall2 R l ys -> In y ys -> exists x, In x l /\ R x y.
Proof.
induction 1 as [|x y0 l ys Hx _ IH]; intros Hin; [contradiction|].
destruct Hin as [->|Hin].
- exists x. split; [now left | exact Hx].
- destruct (IH Hin) as (z & Hz & Hr). exists z. split; [now right | exact Hr].
Qed.

Lemma Forall2_in_l (R : A -> B -> Prop) (l : list A) (ys : list B) (x : A) :
  Forall2 R l ys -> In x l -> exists y, In y ys /\ R x y.
Proof.
induction 1 as [|x0 y l ys Hx _ IH]; intros Hin; [contradiction|].
destruct Hin as [->|Hin].
- exists y. split; [now left | exact Hx].
- destruct (IH Hin) as (z & Hz & Hr). exists z. split; [now right | exact Hr].
Qed.

Lemma Forall2_Permutation (R : A -> B -> Prop) (l1 l2 : list A) :
  Permutation l1 l2 ->
  forall ys1, Forall2 R l1 ys1 ->
              exists ys2, Forall2 R l2 ys2 /\ Permutation ys1 ys2.
Proof.
induction 1 as [|x l1 l2 _ IH|x y l|l1 l2 l3 _ IH1 _ IH2]; intros ys1 H.
- inversion H; subst. exists []. split; constructor.
- inversion H as [|? y ? ys Hx Hl]; subst.
  destruct (IH ys Hl) as (ys2 & H2 & Hp).
  exists (y :: ys2). split; [now constructor | now constructor].
- inversion H as [|? b ? ys Hy Hl]; subst.
  inversion Hl as [|? a ? ys' Hx Hl']; subst.
  exists (a :: b :: ys'). split; [now repeat constructor | apply perm_swap].
- destruct (IH1 ys1 H) as (ys2 & H2 & Hp2).
  destruct (IH2 ys2 H2) as (ys3 & H3 & Hp3).
  exists ys3. split; [exact H3 | now transitivity ys2].
Qed.

Lemma Forall2_functional (R : A -> B -> Prop) (l : list A) (ys ys' : list B) :
  (forall x y y', R x y -> R x y' -> y = y') ->
  Forall2 R l ys -> Forall2 R l ys' -> ys = ys'.
Proof.
intros Hfun H. revert ys'.
induction H as [|x y l ys Hx _ IH]; intros ys' H'; inversion H'; subst;
  [reflexivity|].
f_equal; [now apply (Hfun x) | now apply IH].
Qed.

Lemma Permutation_filter (f : A -> bool) (l1 l2 : list A) :
  Permutation l1 l2 -> Permutation (filter f l1) (filter f l2).
Proof.
induction 1 as [|x l1 l2 _ IH|x y l|l1 l2 l3 _ IH1 _ IH2]; simpl.
- constructor.
- destruct (f x); [now constructor | exact IH].
- destruct (f x), (f y); try reflexivity. apply perm_swap.
- now transitivity (filter f l2).
Qed.

End ListFacts.

Section SortedFacts.

Context {A : Type}.
Variable le : A -> A -> Prop.

(** Two sorted arrangements of the same elements are the same list when
    the order tells the elements apart. *)
Lemma sorted_permutation_unique (l1 : list A) : forall l2,
    StronglySorted le l1 -> StronglySorted le l2 ->
    Permutation l1 l2 ->
    (forall a b, In a l1 -> In b l1 -> le a b -> le b a -> a = b) ->
    l1 = l2.
Proof.
induction l1 as [|a t1 IH]; intros l2 H1 H2 Hp Hanti.
- now apply Permutation_nil in Hp.
- destruct l2 as [|b t2];
    [now apply Permutation_sym, Permutation_nil in Hp|].
  apply StronglySorted_inv in H1. destruct H1 as [Ht1 Ha].
  apply StronglySorted_inv in H2. destruct H2 as [Ht2 Hb].
  rewrite Forall_forall in Ha, Hb.
  assert (Hba : In b (a :: t1))
    by (apply (Permutation_in _ (Permutation_sym Hp)); now left).
  assert (Hab : In a (b :: t2))
    by (apply (Permutation_in _ Hp); now left).
  assert (Heq : a = b).
  { destruct Hba as [E|Hba]; [exact E|].
    destruct Hab as [E|Hab]; [now symmetry|].
    apply Hanti; [now left | now right | now apply Ha | now apply Hb]. }
  subst b. f_equal.
  apply IH; try assumption.
  + now apply Permutation_cons_inv in Hp.
  + intros x y Hx Hy. apply Hanti; now right.
Qed.

End SortedFacts.

Section ScannerMore.

Variable PDF_DIR : string.
Variable localeCompare : string -> string -> Z.

Lemma describe_functional (fs : FileSystem) (f : string) (d d' : PdfFile) :
  describe PDF_DIR fs f = Ok d -> describe PDF_DIR fs f = Ok d' -> d = d'.
Proof. congruence. Qed.

(** What a scan that lists [files] is made of. *)
Lemma listPdfs_listing (fs : FileSystem) (files : list string) :
  readdirSync fs PDF_DIR = Ok files ->
  (exists entries,
      Forall2 (fun f d => describe PDF_DIR fs f = Ok d)
              (filter (fun f => endsWith f ".pdf") files) entries
      /\ listPdfs PDF_DIR localeCompare fs
         = Ok (sort (fun a b => localeCompare (name a) (name b)) entries))
  \/ ((exists bad e, In bad (filter (fun f => endsWith f ".pdf") files)
                     /\ describe PDF_DIR fs bad = Throw e)
      /\ listPdfs PDF_DIR localeCompare fs = Ok []).
Proof.
intros Hdir. unfold listPdfs, listPdfs_try. rewrite Hdir. simpl.
destruct (mapE (describe PDF_DIR fs)
            (filter (fun f => endsWith f ".pdf") files)) as [entries|e] eqn:E.
- left. exists entries. split; [now apply mapE_inv | reflexivity].
- right. split; [|reflexivity].
  destruct (mapE_throw_inv _ _ _ E) as (bad & e' & Hin & Hbad). eauto.
Qed.

(** An entry of a snapshot, whatever the disk: its name ends in [.pdf]
    and its path is the joined one. *)
Lemma listPdfs_entry (fs : FileSystem) (snap : list PdfFile) (d : PdfFile) :
  listPdfs PDF_DIR localeCompare fs = Ok snap -> In d snap ->
  endsWith (name d) ".pdf" = true /\ path d = Path.join [PDF_DIR; name d].
Proof.
intros Hscan Hin.
destruct (readdirSync fs PDF_DIR) as [files|e] eqn:Hdir.
- destruct (listPdfs_listing fs files Hdir)
    as [(entries & Hrel & Hsnap)|[_ Hsnap]];
    rewrite Hsnap in Hscan; injection Hscan as <-; [|contradiction].
  apply (Permutation_in _ (sort_perm _ entries)) in Hin.
  destruct (Forall2_in_r _ _ _ _ Hrel Hin) as (f & Hf & Hd).
  apply filter_In in Hf.
  destruct (describe_name _ _ _ _ Hd) as [-> ->]. now split.
- unfold listPdfs, listPdfs_try in Hscan. rewrite Hdir in Hscan.
  simpl in Hscan. injection Hscan as <-. contradiction.
Qed.

(** X1.  On every disk, each entry of a snapshot is a listed name that
    ends in [.pdf], its [path] is [join(PDF_DIR, name)], and its
    [modified] is the [mtimeMs] that [statSync] reads at that path. *)
Theorem scan_entries_described (fs : FileSystem) (snap : list PdfFile)
        (d : PdfFile) :
  listPdfs PDF_DIR localeCompare fs = Ok snap -> In d snap ->
  exists files st,
    readdirSync fs PDF_DIR = Ok files
    /\ In (name d) files
    /\ endsWith (name d) ".pdf" = true
    /\ path d = Path.join [PDF_DIR; name d]
    /\ statSync fs (path d) = Ok st
    /\ modified d = mtimeMs st.
Proof.
intros Hscan Hin.
destruct (readdirSync fs PDF_DIR) as [files|e] eqn:Hdir.
- destruct (listPdfs_listing fs files Hdir)
    as [(entries & Hrel & Hsnap)|[_ Hsnap]];
    rewrite Hsnap in Hscan; injection Hscan as <-; [|contradiction].
  apply (Permutation_in _ (sort_perm _ entries)) in Hin.
  destruct (Forall2_in_r _ _ _ _ Hrel Hin) as (f & Hf & Hd).
  apply filter_In in Hf. destruct Hf as [Hlisted Hpdf].
  unfold describe in Hd.
  destruct (statSync fs (Path.join [PDF_DIR; f])) as [st|e] eqn:Hst;
    simpl in Hd; [|discriminate].
  injection Hd as <-. simpl. exists files, st. now repeat split.
- unfold listPdfs, listPdfs_try in Hscan. rewrite Hdir in Hscan.
  simpl in Hscan. injection Hscan as <-. contradiction.
Qed.

(** X2.  A scan is all or nothing: when the directory can be listed,
    the snapshot holds every listed name that ends in [.pdf], as often
    as it is listed, or it is empty. *)
Theorem scan_all_or_nothing (fs : FileSystem) (files : list string) :
  readdirSync fs PDF_DIR = Ok files ->
  exists snap,
    listPdfs PDF_DIR localeCompare fs = Ok snap
    /\ (snap = []
        \/ Permutation (map name snap)
             (filter (fun f => endsWith f ".pdf") files)).
Proof.
intros Hdir.
destruct (listPdfs_listing fs files Hdir)
  as [(entries & Hrel & Hsnap)|[_ Hsnap]]; rewrite Hsnap.
- eexists. split; [reflexivity|]. right.
  rewrite <- (described_names PDF_DIR fs _ _ Hrel).
  apply Permutation_map, sort_perm.
- exists []. split; [reflexivity | now left].
Qed.

(** X3.  The snapshot does not depend on the order in which
    [readdirSync] lists the directory: two disks with the same metadata
    whose listings hold the same names in different orders give the
    same snapshot, when [localeCompare] is a total order on names. *)
Theorem scan_independent_of_listing_order (fs1 fs2 : FileSystem)
        (files1 files2 : list string) :
  readdirSync fs1 PDF_DIR = Ok files1 ->
  readdirSync fs2 PDF_DIR = Ok files2 ->
  Permutation files1 files2 ->
  (forall p, statSync fs1 p = statSync fs2 p) ->
  (forall a b, (localeCompare a b <= 0 \/ localeCompare b a <= 0)%Z) ->
  (forall a b c, (localeCompare a b <= 0 -> localeCompare b c <= 0 ->
                  localeCompare a c <= 0)%Z) ->
  antisymmetric localeCompare ->
  listPdfs PDF_DIR localeCompare fs1 = listPdfs PDF_DIR localeCompare fs2.
Proof.
intros Hdir1 Hdir2 Hperm Hstat Htotal Htrans Hanti.
assert (Hdesc : forall f, describe PDF_DIR fs1 f = describe PDF_DIR fs2 f)
  by (intros f; unfold describe; now rewrite Hstat).
pose proof (Permutation_filter (fun f => endsWith f ".pdf") _ _ Hperm) as Hpdfs.
set (cmp := fun a b : PdfFile => localeCompare (name a) (name b)).
destruct (listPdfs_listing fs1 files1 Hdir1)
  as [(ys1 & Hrel1 & Hsnap1)|[(bad & e & Hbad & Hthrow) Hsnap1]];
  rewrite Hsnap1.
- destruct (Forall2_Permutation _ _ _ Hpdfs ys1 Hrel1) as (ys2 & Hrel2 & Hp).
  destruct (listPdfs_listing fs2 files2 Hdir2)
    as [(ys2' & Hrel2' & Hsnap2)|[(bad & e & Hbad & Hthrow) Hsnap2]];
    rewrite Hsnap2.
  + assert (ys2' = ys2) as ->.
    { apply (Forall2_functional _ _ _ _ (describe_functional fs2) Hrel2').
      eapply Forall2_impl; [|exact Hrel2].
      intros f d Hd. now rewrite <- Hdesc. }
    f_equal. fold cmp.
    apply (sorted_permutation_unique (fun a b => (cmp a b <= 0)%Z)).
    * apply sort_sorted; unfold cmp; intros; eauto.
    * apply sort_sorted; unfold cmp; intros; eauto.
    * rewrite !sort_perm. exact Hp.
    * intros a b Ha Hb Hab Hba.
      apply (Permutation_in _ (sort_perm _ ys1)) in Ha, Hb.
      destruct (Forall2_in_r _ _ _ _ Hrel1 Ha) as (fa & _ & Hfa).
      destruct (Forall2_in_r _ _ _ _ Hrel1 Hb) as (fb & _ & Hfb).
      destruct (describe_name _ _ _ _ Hfa) as [Hna _].
      destruct (describe_name _ _ _ _ Hfb) as [Hnb _].
      assert (Hsame : fa = fb) by (rewrite <- Hna, <- Hnb; now apply Hanti).
      rewrite Hsame in Hfa. congruence.
  + exfalso.
    apply (Permutation_in _ (Permutation_sym Hpdfs)) in Hbad.
    destruct (Forall2_in_l _ _ _ _ Hrel1 Hbad) as (d & _ & Hd).
    rewrite Hdesc in Hd. congruence.
- apply (Permutation_in _ Hpdfs) in Hbad.
  rewrite Hdesc in Hthrow.
  destruct (listPdfs_listing fs2 files2 Hdir2)
    as [(ys2 & Hrel2 & _)|[_ Hsnap2]]; [|now rewrite Hsnap2].
  exfalso.
  destruct (Forall2_in_l _ _ _ _ Hrel2 Hbad) as (d & _ & Hd). congruence.
Qed.

End ScannerMore.

Lemma compareCodeUnits_antisymmetric : antisymmetric compareCodeUnits.
Proof.
intros a b Hab Hba.
apply compareCodeUnits_le in Hab, Hba.
rewrite String.compare_antisym in Hba.
destruct (String.compare a b) eqn:E; simpl in Hba; try congruence.
now apply String.compare_eq_iff.
Qed.

(** The entry of [a.pdf] in the scan of [./pdfs]. *)
Lemma scan_entries_described_witness :
  exists files st,
    readdirSync disk_two_pdfs "./pdfs" = Ok files
    /\ In "a.pdf" files
    /\ endsWith "a.pdf" ".pdf" = true
    /\ "pdfs/a.pdf" = Path.join ["./pdfs"; "a.pdf"]
    /\ statSync disk_two_pdfs "pdfs/a.pdf" = Ok st
    /\ mtimeMs (stats_at 2000) = mtimeMs st.
Proof.
apply (scan_entries_described "./pdfs" compareCodeUnits disk_two_pdfs
         [ {| name := "a.pdf"; path := "pdfs/a.pdf";
              modified := mtimeMs (stats_at 2000) |};
           {| name := "b.pdf"; path := "pdfs/b.pdf";
              modified := mtimeMs (stats_at 1000) |} ]
         {| name := "a.pdf"; path := "pdfs/a.pdf";
            modified := mtimeMs (stats_at 2000) |}).
- reflexivity.
- simpl. auto.
Defined.

(** The directory with a dangling link: the scan is empty. *)
Lemma scan_all_or_nothing_witness :
  exists snap,
    listPdfs "./pdfs" compareCodeUnits disk_broken_entry = Ok snap
    /\ (snap = []
        \/ Permutation (map name snap)
             (filter (fun f => endsWith f ".pdf") ["a.pdf"; "broken.pdf"])).
Proof.
apply (scan_all_or_nothing "./pdfs" compareCodeUnits disk_broken_entry).
reflexivity.
Defined.

(** The same directory listed in two orders. *)
Lemma scan_independent_of_listing_order_witness :
  listPdfs "./pdfs" compareCodeUnits disk_two_pdfs
  = listPdfs "./pdfs" compareCodeUnits disk_two_pdfs_relisted.
Proof.
apply (scan_independent_of_listing_order
         "./pdfs" compareCodeUnits disk_two_pdfs disk_two_pdfs_relisted
         ["b.pdf"; "notes.txt"; "a.pdf"] ["a.pdf"; "b.pdf"; "notes.txt"]).
- reflexivity.
- reflexivity.
- symmetry. apply (Permutation_cons_app ["b.pdf"; "notes.txt"] []).
  rewrite app_nil_r. reflexivity.
- reflexivity.
- apply compareCodeUnits_total.
- apply compareCodeUnits_trans.
- apply compareCodeUnits_antisymmetric.
Defined.

(* ================================================================== *)
(** * More on the clients set *)
(* ================================================================== *)

Section RegistryMore.

Lemma set_add_In (ws x : WebSocket) (s : list WebSocket) :
  In x (set_add ws s) <-> x = ws \/ In x s.
Proof.
unfold set_add. destruct (existsb (Nat.eqb ws) s) eqn:E.
- split; [now right|]. intros [->|H]; [|exact H].
  apply existsb_exists in E. destruct E as (y & Hy & Heq).
  apply Nat.eqb_eq in Heq. now subst.
- rewrite in_app_iff. simpl. intuition.
Qed.

Lemma set_delete_In (ws x : WebSocket) (s : list WebSocket) :
  In x (set_delete ws s) <-> x <> ws /\ In x s.
Proof.
unfold set_delete. rewrite filter_In, negb_true_iff, Nat.eqb_neq.
intuition.
Qed.

Lemma existsb_In (ws : WebSocket) (s : list WebSocket) :
  existsb (Nat.eqb ws) s = true <-> In ws s.
Proof.
rewrite existsb_exists. split.
- intros (x & Hx & Heq). apply Nat.eqb_eq in Heq. now subst.
- intros H. exists ws. split; [exact H | apply Nat.eqb_refl].
Qed.

Lemma handleAll_cons (e : WsEvent) (evs : list WsEvent) (w : World) :
  handleAll (e :: evs) w = handleAll evs (snd (handle e w)).
Proof. destruct e; reflexivity. Qed.

(** X4.  Whatever connections open and close, in whatever order, the
    [clients] set never holds a connection twice; the handlers never
    throw and write nothing to the console or the network. *)
Theorem clients_never_duplicated (evs : list WsEvent) (w : World) :
  NoDup (clients w) ->
  exists cs,
    handleAll evs w = (Ok tt, {| clients := cs; output := output w |})
    /\ NoDup cs.
Proof.
revert w. induction evs as [|e evs IH]; intros w Hnd.
- exists (clients w). split; [now destruct w | exact Hnd].
- rewrite handleAll_cons.
  destruct (IH (snd (handle e w))) as (cs & Hrun & Hcs).
  + destruct e; simpl; [now apply set_add_NoDup | now apply set_delete_NoDup].
  + exists cs. split; [|exact Hcs]. rewrite Hrun. now destruct e.
Qed.

(** X5.  After any sequence of [open] and [close] calls, a connection is
    in [clients] exactly when its last call was [open], or, when it had
    none, when it was in the set before. *)
Theorem clients_are_the_open_connections (evs : list WsEvent) (w : World)
        (ws : WebSocket) :
  In ws (clients (snd (handleAll evs w)))
  <-> lastIsOpen ws evs (existsb (Nat.eqb ws) (clients w)) = true.
Proof.
revert w. induction evs as [|e evs IH]; intros w.
- simpl. symmetry. apply existsb_In.
- rewrite handleAll_cons, IH. unfold lastIsOpen. cbn [fold_left].
  match goal with
  | |- fold_left ?f evs ?b1 = true <-> fold_left ?f evs ?b2 = true =>
      replace b1 with b2; [reflexivity|]
  end.
  destruct e as [x|x]; simpl.
  + destruct (Nat.eqb_spec x ws) as [->|Hne].
    * symmetry. apply existsb_In, set_add_In. now left.
    * destruct (existsb (Nat.eqb ws) (clients w)) eqn:E; symmetry.
      -- apply existsb_In, set_add_In. right. now apply existsb_In.
      -- apply not_true_is_false. intros H.
         apply existsb_In, set_add_In in H. destruct H as [H|H]; [congruence|].
         apply existsb_In in H. congruence.
  + destruct (Nat.eqb_spec x ws) as [->|Hne].
    * symmetry. apply not_true_is_false. intros H.
      apply existsb_In, set_delete_In in H. now destruct H.
    * destruct (existsb (Nat.eqb ws) (clients w)) eqn:E; symmetry.
      -- apply existsb_In, set_delete_In. split; [congruence|].
         now apply existsb_In.
      -- apply not_true_is_false. intros H.
         apply existsb_In, set_delete_In in H. destruct H as [_ H].
         apply existsb_In in H. congruence.
Qed.

(** X6.  A connection that opens and then closes leaves the module as
    it was: the same clients in the same order. *)
Theorem open_then_close_restores (ws : WebSocket) (w : World) :
  ~ In ws (clients w) ->
  bindM (ws_open ws) (fun _ => ws_close ws) w = (Ok tt, w).
Proof.
intros Hnew. unfold bindM, ws_open, ws_close. cbn [clients output].
unfold set_add.
destruct (existsb (Nat.eqb ws) (clients w)) eqn:E;
  [now apply existsb_In in E|].
assert (Hback : set_delete ws (clients w ++ [ws]) = clients w).
{ unfold set_delete. rewrite filter_app. simpl. rewrite Nat.eqb_refl. simpl.
  rewrite app_nil_r. now apply set_delete_absent. }
rewrite Hback. now destruct w.
Qed.

(** X7.  Calling [open] twice for a connection is calling it once, and
    so is [close]; [close] for a connection that is not registered
    changes nothing. *)
Theorem handlers_idempotent (ws : WebSocket) (w : World) :
  bindM (ws_open ws) (fun _ => ws_open ws) w = ws_open ws w
  /\ bindM (ws_close ws) (fun _ => ws_close ws) w = ws_close ws w
  /\ (~ In ws (clients w) -> ws_close ws w = (Ok tt, w)).
Proof.
unfold bindM, ws_open, ws_close. cbn [clients output].
split; [|split].
- do 2 f_equal. unfold set_add at 1.
  replace (existsb (Nat.eqb ws) (set_add ws (clients w))) with true;
    [reflexivity|].
  symmetry. apply existsb_In, set_add_In. now left.
- do 2 f_equal. apply set_delete_absent.
  intros H. apply set_delete_In in H. now destruct H.
- intros H. rewrite set_delete_absent by assumption. now destruct w.
Qed.

End RegistryMore.

(** Connection [3] opens, closes and opens again beside [1] and [2]. *)
Lemma clients_never_duplicated_witness :
  exists cs,
    handleAll [Opened 3; Closed 3; Opened 3; Opened 1] two_clients
    = (Ok tt, {| clients := cs; output := output two_clients |})
    /\ NoDup cs.
Proof.
apply (clients_never_duplicated
         [Opened 3; Closed 3; Opened 3; Opened 1] two_clients).
repeat constructor; simpl; intuition discriminate.
Defined.

(** Connection [3] comes and goes. *)
Lemma open_then_close_restores_witness :
  bindM (ws_open 3) (fun _ => ws_close 3) two_clients = (Ok tt, two_clients).
Proof.
apply (open_then_close_restores 3 two_clients).
simpl. intuition discriminate.
Defined.

Example clients_after_events :
  clients (snd (handleAll [Opened 1; Opened 2; Closed 1; Opened 1] startWorld))
  = [2; 1].
Proof. reflexivity. Qed.

(* ================================================================== *)
(** * More on the change reaction *)
(* ================================================================== *)

Section EngineMore.

Variable PDF_DIR : string.
Variable localeCompare : string -> string -> Z.
Variable fs : FileSystem.
Variable net : Network.

(** How far a broadcast gets: the clients before the first [send] that
    throws. *)
Lemma forEach_send_any (msg : Message) (cs : list WebSocket) : forall w,
    exists pre post r,
      cs = (pre ++ post)%list
      /\ forEach cs (fun ws => ws_send net ws msg) w
         = (r, {| clients := clients w;
                  output := output w ++ map (sent net msg) pre |})
      /\ (forall x, In x pre -> exists st, net x msg = Ok st)
      /\ ((post = [] /\ r = Ok tt)
          \/ exists bad rest e,
               post = bad :: rest /\ net bad msg = Throw e /\ r = Throw e).
Proof.
induction cs as [|x cs IH]; intros w.
- exists [], [], (Ok tt). repeat split.
  + destruct w. simpl. now rewrite app_nil_r.
  + intros x [].
  + now left.
- cbn [forEach]. unfold bindM at 1, ws_send at 1.
  destruct (net x msg) as [st|e] eqn:Hx.
  + destruct (IH {| clients := clients w;
                    output := output w ++ [WsSend x msg st] |})
      as (pre & post & r & Hcs & Hrun & Hpre & Hend).
    exists (x :: pre), post, r. repeat split.
    * simpl. now rewrite Hcs.
    * rewrite Hrun. cbn [clients output map]. rewrite <- app_assoc.
      unfold sent at 2, sendStatus. now rewrite Hx.
    * intros y [<-|Hy]; [now exists st | now apply Hpre].
    * exact Hend.
  + exists [], (x :: cs), (Throw e). repeat split.
    * destruct w. simpl. now rewrite app_nil_r.
    * intros y [].
    * right. now exists x, cs, e.
Qed.

Lemma broadcastPdfs_unfold (w : World) (snap : list PdfFile) :
  listPdfs PDF_DIR localeCompare fs = Ok snap ->
  broadcastPdfs PDF_DIR localeCompare fs net w
  = forEach (clients w) (fun ws => ws_send net ws (PdfsUpdated snap)) w.
Proof.
intros Hscan. unfold broadcastPdfs, bindM, liftE, getClients.
now rewrite Hscan.
Qed.

Lemma onWatch_unfold (event : WatchEventType) (filename : string) (w : World) :
  endsWith filename ".pdf" = true ->
  onWatch PDF_DIR localeCompare fs net event (Some filename) w
  = match broadcastPdfs PDF_DIR localeCompare fs net
            {| clients := clients w;
               output := output w
                 ++ [ConsoleLog ("[watch] " ++ eventName event ++ ": "
                                 ++ filename)] |} with
    | (Ok _, w2) =>
        forEach (clients w2) (fun ws => ws_send net ws (PdfChanged filename)) w2
    | (Throw e, w2) => (Throw e, w2)
    end.
Proof.
intros Hpdf. unfold onWatch. rewrite Hpdf. reflexivity.
Qed.

(** The reaction on any network. *)
Lemma onWatch_shape (event : WatchEventType) (filename : string)
      (w : World) (snap : list PdfFile) :
  endsWith filename ".pdf" = true ->
  listPdfs PDF_DIR localeCompare fs = Ok snap ->
  exists r pre1 post1 pre2 post2,
    onWatch PDF_DIR localeCompare fs net event (Some filename) w
    = (r, {| clients := clients w;
             output := output w
               ++ ConsoleLog ("[watch] " ++ eventName event ++ ": " ++ filename)
               :: map (sent net (PdfsUpdated snap)) pre1
               ++ map (sent net (PdfChanged filename)) pre2 |})
    /\ clients w = (pre1 ++ post1)%list
    /\ clients w = (pre2 ++ post2)%list
    /\ (forall x, In x pre1 -> exists st, net x (PdfsUpdated snap) = Ok st)
    /\ (forall x, In x pre2 -> exists st, net x (PdfChanged filename) = Ok st)
    /\ ((post1 = [] /\ post2 = [] /\ r = Ok tt)
        \/ (post1 = []
            /\ exists bad rest e,
                 post2 = bad :: rest
                 /\ net bad (PdfChanged filename) = Throw e /\ r = Throw e)
        \/ (pre2 = []
            /\ exists bad rest e,
                 post1 = bad :: rest
                 /\ net bad (PdfsUpdated snap) = Throw e /\ r = Throw e)).
Proof.
intros Hpdf Hscan.
rewrite (onWatch_unfold event filename w Hpdf).
rewrite (broadcastPdfs_unfold _ snap Hscan). cbn [clients].
match goal with
| |- context [forEach (clients w) _ ?w1] =>
    destruct (forEach_send_any (PdfsUpdated snap) (clients w) w1)
      as (pre1 & post1 & r1 & Hcs1 & Hrun1 & Hpre1 & Hend1)
end.
rewrite Hrun1. cbn [clients output].
destruct Hend1 as [[-> ->]|(bad & rest & e & -> & Hbad & ->)].
- match goal with
  | |- context [forEach (clients w) _ ?w2] =>
      destruct (forEach_send_any (PdfChanged filename) (clients w) w2)
        as (pre2 & post2 & r2 & Hcs2 & Hrun2 & Hpre2 & Hend2)
  end.
  rewrite Hrun2. cbn [clients output].
  exists r2, pre1, [], pre2, post2.
  repeat split; try assumption.
  + now rewrite <- !app_assoc.
  + destruct Hend2 as [[-> ->]|H]; [now left | right; left; now split].
- exists (Throw e), pre1, (bad :: rest), [], (clients w).
  cbn [map].
  repeat split; try assumption.
  + now rewrite app_nil_r, <- !app_assoc.
  + intros x [].
  + right. right. split; [reflexivity|]. now exists bad, rest, e.
Qed.

(** X8.  The reaction to a notification for a [.pdf] name, on any
    network.  It logs one line.  It then sends the list to the clients
    in order: to [pre1], on which [send] returns, stopping at the first
    client on which [send] throws.  If there was such a client, that
    exception leaves the callback and the name is sent to nobody.
    Otherwise it sends the name in the same way, to [pre2], and returns
    when [send] returned for every client, or throws the exception of
    the first [send] that threw.  The [clients] set is never changed
    and earlier output is kept. *)
Theorem reaction_on_any_network (event : WatchEventType) (filename : string)
        (w : World) :
  endsWith filename ".pdf" = true ->
  exists snap r pre1 post1 pre2 post2,
    listPdfs PDF_DIR localeCompare fs = Ok snap
    /\ onWatch PDF_DIR localeCompare fs net event (Some filename) w
       = (r, {| clients := clients w;
                output := output w
                  ++ ConsoleLog ("[watch] " ++ eventName event ++ ": "
                                 ++ filename)
                  :: map (sent net (PdfsUpdated snap)) pre1
                  ++ map (sent net (PdfChanged filename)) pre2 |})
    /\ clients w = (pre1 ++ post1)%list
    /\ clients w = (pre2 ++ post2)%list
    /\ (forall x, In x pre1 -> exists st, net x (PdfsUpdated snap) = Ok st)
    /\ (forall x, In x pre2 -> exists st, net x (PdfChanged filename) = Ok st)
    /\ ((post1 = [] /\ post2 = [] /\ r = Ok tt)
        \/ (post1 = []
            /\ exists bad rest e,
                 post2 = bad :: rest
                 /\ net bad (PdfChanged filename) = Throw e /\ r = Throw e)
        \/ (pre2 = []
            /\ exists bad rest e,
                 post1 = bad :: rest
                 /\ net bad (PdfsUpdated snap) = Throw e /\ r = Throw e)).
Proof.
intros Hpdf.
destruct (listPdfs_returns PDF_DIR localeCompare fs) as [snap Hscan].
destruct (onWatch_shape event filename w snap Hpdf Hscan)
  as (r & pre1 & post1 & pre2 & post2 & Hrun & H1 & H2 & Hp1 & Hp2 & Hend).
exists snap, r, pre1, post1, pre2, post2.
split; [exact Hscan|]. split; [exact Hrun|].
split; [exact H1|]. split; [exact H2|].
split; [exact Hp1|]. split; [exact Hp2 | exact Hend].
Qed.

(** X9.  The reaction to a notification for a [.pdf] name returns
    exactly when, for every registered client, [send] returns for the
    list message and for the name message; otherwise the exception of a
    [send] leaves the callback. *)
Theorem reaction_returns_iff_sends_return (event : WatchEventType)
        (filename : string) (w : World) (snap : list PdfFile) :
  endsWith filename ".pdf" = true ->
  listPdfs PDF_DIR localeCompare fs = Ok snap ->
  fst (onWatch PDF_DIR localeCompare fs net event (Some filename) w) = Ok tt
  <-> (forall ws, In ws (clients w) ->
         (exists st, net ws (PdfsUpdated snap) = Ok st)
         /\ (exists st, net ws (PdfChanged filename) = Ok st)).
Proof.
intros Hpdf Hscan.
destruct (onWatch_shape event filename w snap Hpdf Hscan)
  as (r & pre1 & post1 & pre2 & post2 & Hrun & H1 & H2 & Hp1 & Hp2 & Hend).
rewrite Hrun. cbn [fst].
destruct Hend as [(-> & -> & ->)
                 |[(-> & bad & rest & e & -> & Hbad & ->)
                  |(-> & bad & rest & e & -> & Hbad & ->)]].
- rewrite app_nil_r in H1, H2. subst pre1 pre2.
  split; [|reflexivity]. intros _ ws Hws. split; auto.
- split; [discriminate|]. intros Hall. exfalso.
  destruct (Hall bad) as [_ [st Hst]]; [|congruence].
  rewrite H2. apply in_or_app. right. now left.
- split; [discriminate|]. intros Hall. exfalso.
  destruct (Hall bad) as [[st Hst] _]; [|congruence].
  rewrite H1. apply in_or_app. right. now left.
Qed.

(** X10.  A notification never makes the server send to a connection
    that is not in [clients]: a client that connects after a reaction,
    or has closed before it, gets nothing of it, on any network. *)
Theorem reaction_skips_unregistered (event : WatchEventType)
        (filename : option string) (w : World) (ws : WebSocket) :
  ~ In ws (clients w) ->
  sentTo ws (output (snd (onWatch PDF_DIR localeCompare fs net event
                            filename w)))
  = sentTo ws (output w).
Proof.
intros Hout.
destruct filename as [f|]; [|reflexivity].
destruct (endsWith f ".pdf") eqn:Hpdf;
  [|unfold onWatch; now rewrite Hpdf].
destruct (listPdfs_returns PDF_DIR localeCompare fs) as [snap Hscan].
destruct (onWatch_shape event f w snap Hpdf Hscan)
  as (r & pre1 & post1 & pre2 & post2 & Hrun & H1 & H2 & _).
rewrite Hrun. cbn [snd output].
rewrite sentTo_app. cbn [sentTo]. rewrite sentTo_app.
rewrite !sentTo_absent, app_nil_r; [reflexivity| |].
- intros Hin. apply Hout. rewrite H2. apply in_or_app. now left.
- intros Hin. apply Hout. rewrite H1. apply in_or_app. now left.
Qed.

(** The scan is empty when the directory cannot be listed or the
    metadata of a listed [.pdf] entry cannot be read. *)
Lemma listPdfs_empty_on_failure :
  (exists e, readdirSync fs PDF_DIR = Throw e)
  \/ (exists files bad e,
         readdirSync fs PDF_DIR = Ok files
         /\ In bad files /\ endsWith bad ".pdf" = true
         /\ statSync fs (Path.join [PDF_DIR; bad]) = Throw e) ->
  listPdfs PDF_DIR localeCompare fs = Ok [].
Proof.
intros [[e Hdir]|(files & bad & e & Hdir & Hin & Hpdf & Hstat)].
- unfold listPdfs, listPdfs_try. now rewrite Hdir.
- destruct (listPdfs_listing PDF_DIR localeCompare fs files Hdir)
    as [(entries & Hrel & _)|[_ Hsnap]]; [exfalso|exact Hsnap].
  assert (Hbad : In bad (filter (fun f => endsWith f ".pdf") files))
    by (apply filter_In; now split).
  destruct (Forall2_in_l _ _ _ _ Hrel Hbad) as (d & _ & Hd).
  unfold describe in Hd. rewrite Hstat in Hd. discriminate.
Qed.

(** X11.  When the directory cannot be listed, or the metadata of one
    listed [.pdf] entry cannot be read, a notification for a [.pdf] name
    still makes the server broadcast: every client is sent an empty
    list, and then the name. *)
Theorem reaction_broadcasts_empty_list_on_scan_failure
        (event : WatchEventType) (filename : string) (w : World) :
  (exists e, readdirSync fs PDF_DIR = Throw e)
  \/ (exists files bad e,
         readdirSync fs PDF_DIR = Ok files
         /\ In bad files /\ endsWith bad ".pdf" = true
         /\ statSync fs (Path.join [PDF_DIR; bad]) = Throw e) ->
  endsWith filename ".pdf" = true ->
  NoDup (clients w) ->
  (forall ws msg, In ws (clients w) -> exists st, net ws msg = Ok st) ->
  exists new,
    onWatch PDF_DIR localeCompare fs net event (Some filename) w
    = (Ok tt, {| clients := clients w; output := output w ++ new |})
    /\ forall ws, In ws (clients w) ->
                  sentTo ws new = [PdfsUpdated []; PdfChanged filename].
Proof.
intros Hfail Hpdf Hnd Hret.
pose proof (listPdfs_empty_on_failure Hfail) as Hscan.
eexists. split.
- apply (onWatch_output PDF_DIR localeCompare fs net event filename w []);
    assumption.
- intros ws Hws. now apply sentTo_reaction.
Qed.

(** X12.  After [close] for a connection, a notification for a [.pdf]
    name sends nothing to it, and every other client is still sent the
    list and then the name. *)
Theorem closed_client_not_notified (event : WatchEventType)
        (filename : string) (w : World) (ws : WebSocket) :
  endsWith filename ".pdf" = true ->
  NoDup (clients w) ->
  (forall x msg, In x (clients w) -> exists st, net x msg = Ok st) ->
  exists snap new,
    listPdfs PDF_DIR localeCompare fs = Ok snap
    /\ bindM (ws_close ws)
         (fun _ => onWatch PDF_DIR localeCompare fs net event (Some filename)) w
       = (Ok tt, {| clients := set_delete ws (clients w);
                    output := output w ++ new |})
    /\ sentTo ws new = []
    /\ forall x, In x (clients w) -> x <> ws ->
                 sentTo x new = [PdfsUpdated snap; PdfChanged filename].
Proof.
intros Hpdf Hnd Hret.
destruct (listPdfs_returns PDF_DIR localeCompare fs) as [snap Hscan].
exists snap. eexists. split; [exact Hscan|].
assert (Hsub : forall x, In x (set_delete ws (clients w)) ->
                         x <> ws /\ In x (clients w))
  by (intros x; apply set_delete_In).
split; [|split].
- unfold bindM, ws_close.
  rewrite (onWatch_output PDF_DIR localeCompare fs net event filename _ snap);
    try assumption; [reflexivity|].
  cbn [clients]. intros x msg Hx. apply Hret. now apply Hsub.
- cbn [sentTo]. rewrite sentTo_app, !sentTo_absent; [reflexivity| |];
    intros Hin; now apply Hsub in Hin.
- intros x Hx Hne. apply sentTo_reaction.
  + now apply set_delete_NoDup.
  + apply set_delete_In. now split.
Qed.

End EngineMore.

(* ================================================================== *)
(** * More on the file gateway *)
(* ================================================================== *)

Section GatewayMore.

Variable PDF_DIR : string.
Variable localeCompare : string -> string -> Z.
Variable decodeURIComponent : string -> Exc string.
Variable fs : FileSystem.

(** X13.  The route throws in two cases and no other: when
    [decodeURIComponent] throws on the parameter (a malformed escape is
    not answered with 400), and when the decoded name passes the three
    checks and [Bun.file] or [exists] throws at [join(PDF_DIR, name)].
    In both cases nothing is logged. *)
Theorem gateway_throws_iff (param : string) (w : World) (e : Error) :
  (fst (apiPdf PDF_DIR decodeURIComponent fs param w) = Throw e
   <-> decodeURIComponent param = Throw e
       \/ exists name,
            decodeURIComponent param = Ok name
            /\ invalidName name = false
            /\ fileExists fs (Path.join [PDF_DIR; name]) = Throw e)
  /\ (fst (apiPdf PDF_DIR decodeURIComponent fs param w) = Throw e ->
      snd (apiPdf PDF_DIR decodeURIComponent fs param w) = w).
Proof.
destruct (decodeURIComponent param) as [name|e'] eqn:Hdec.
- rewrite (apiPdf_cases PDF_DIR decodeURIComponent fs param name w Hdec).
  destruct (invalidName name) eqn:Hinv.
  + split; [|discriminate]. split; [discriminate|].
    intros [H|(n & [= <-] & Hn & _)]; congruence.
  + destruct (fileExists fs (Path.join [PDF_DIR; name])) as [[|]|e0] eqn:Hex.
    * split; [|discriminate]. split; [discriminate|].
      intros [H|(n & [= <-] & _ & Hn)]; congruence.
    * split; [|discriminate]. split; [discriminate|].
      intros [H|(n & [= <-] & _ & Hn)]; congruence.
    * split; [|reflexivity]. split.
      -- simpl. intros [= ->]. right. now exists name.
      -- intros [H|(n & [= <-] & _ & Hn)]; [discriminate|].
         simpl. congruence.
- rewrite (apiPdf_decode_throws PDF_DIR decodeURIComponent fs param w e' Hdec).
  split; [|reflexivity]. split.
  + simpl. intros [= ->]. now left.
  + intros [[= ->]|(n & Hn & _)]; [reflexivity | discriminate].
Qed.

(** X14.  The viewer asks the file route for a listed entry, and the
    handler gets the entry's name as parameter and decodes it once
    more.  When that decoding throws (a name that holds a [%] which
    starts no escape), the handler throws.  When the name decodes to
    itself: the answer is 400 exactly when the name holds [/] or [..];
    200 exactly when it holds neither and the existence check at the
    entry's [path] returns true, the body being the file at that very
    [path]; 404 exactly when it holds neither and the check returns
    false; and the handler throws exactly when it holds neither and
    the check throws.  So a listed file whose name holds two dots in a
    row is never served. *)
Theorem listed_entry_served (snap : list PdfFile) (d : PdfFile) (w : World) :
  listPdfs PDF_DIR localeCompare fs = Ok snap ->
  In d snap ->
  let run := apiPdf PDF_DIR decodeURIComponent fs (name d) w in
  (forall e, decodeURIComponent (name d) = Throw e -> run = (Throw e, w))
  /\ (decodeURIComponent (name d) = Ok (name d) ->
      ((exists resp w', run = (Ok resp, w') /\ status resp = 400%Z)
       <-> includes (name d) "/" = true \/ includes (name d) ".." = true)
      /\ ((exists resp w', run = (Ok resp, w') /\ status resp = 200%Z)
          <-> includes (name d) "/" = false /\ includes (name d) ".." = false
              /\ fileExists fs (path d) = Ok true)
      /\ ((exists resp w', run = (Ok resp, w') /\ status resp = 404%Z)
          <-> includes (name d) "/" = false /\ includes (name d) ".." = false
              /\ fileExists fs (path d) = Ok false)
      /\ (forall e, fst run = Throw e
                    <-> includes (name d) "/" = false
                        /\ includes (name d) ".." = false
                        /\ fileExists fs (path d) = Throw e)
      /\ (forall resp w', run = (Ok resp, w') -> status resp = 200%Z ->
            body resp = FileBody (path d))).
Proof.
intros Hscan Hin run. subst run.
destruct (listPdfs_entry PDF_DIR localeCompare fs snap d Hscan Hin)
  as [Hpdf Hpath].
split; [intros e; apply apiPdf_decode_throws|].
intros Hdec.
rewrite (apiPdf_cases PDF_DIR decodeURIComponent fs (name d) (name d) w Hdec).
unfold invalidName. rewrite Hpdf, <- Hpath. cbn [negb orb].
destruct (includes (name d) "/"), (includes (name d) "..");
  cbn [orb];
  [| | |destruct (fileExists fs (path d)) as [[|]|e0]].
all: split; [|split; [|split; [|split]]].
all: try (split; [intros (resp & w' & Heq & Hst)|intros H]).
all: try (intros e; split; [intros Heq|intros H]).
all: try (intros resp w' Heq Hst).
all: try (injection Heq as <- <-); try discriminate.
all: try (destruct H as (H1 & H2 & H3); discriminate).
all: try (destruct H as [H|H]; discriminate).
all: try tauto.
all: try (do 2 eexists; split; reflexivity).
all: try (simpl in *; congruence).
- simpl in Heq. injection Heq as ->. now repeat split.
- destruct H as (_ & _ & [= ->]). reflexivity.
Qed.

End GatewayMore.

(* ================================================================== *)
(** * The list route and [path.resolve] *)
(* ================================================================== *)

Section ResolveFacts.

Import Path.

Lemma normalizeString_trailing (allow : bool) (segs : list string) :
  normalizeString allow (segs ++ [""]) = normalizeString allow segs.
Proof. unfold normalizeString. now rewrite fold_left_app. Qed.

Lemma split_trailing_slash (s : string) :
  split (s ++ "/") = (split s ++ [""])%list.
Proof. exact (split_app_slash s ""). Qed.

(** A segment list in which every segment is [..] or a name. *)
Let dotsOrNames (acc : list string) : Prop :=
  Forall (fun s => s = ".." \/ isName s = true) acc.

Lemma normalizeStep_dotsOrNames (acc : list string) (seg : string) :
  dotsOrNames acc -> dotsOrNames (normalizeStep true acc seg).
Proof.
intros Hacc. unfold normalizeStep.
destruct ((seg =? "") || (seg =? ".")) eqn:E; [exact Hacc|].
destruct (String.eqb_spec seg "..") as [->|Hdd].
- destruct acc as [|last rest]; [repeat constructor; now left|].
  destruct (last =? ".."); [constructor; [now left | exact Hacc]|].
  now inversion Hacc.
- constructor; [|exact Hacc]. right. unfold isName.
  apply orb_false_elim in E. destruct E as [E1 E2].
  apply String.eqb_neq in Hdd. now rewrite E1, E2, Hdd.
Qed.

Lemma normalizeStep_skip (b : bool) (acc : list string) (seg : string) :
  (seg =? "") || (seg =? ".") = true -> normalizeStep b acc seg = acc.
Proof. intros H. unfold normalizeStep. now rewrite H. Qed.

Lemma normalizeStep_dotdot (b : bool) (acc : list string) :
  normalizeStep b acc ".."
  = match acc with
    | last :: rest =>
        if last =? ".." then (if b then ".." :: acc else acc) else rest
    | [] => if b then [".."] else []
    end.
Proof. reflexivity. Qed.

Lemma normalizeStep_commutes (b : bool) (acc0 acc : list string) (x : string) :
  dotsOrNames acc ->
  normalizeStep b (fold_left (normalizeStep b) (rev acc) acc0) x
  = fold_left (normalizeStep b) (rev (normalizeStep true acc x)) acc0.
Proof.
intros Hacc.
destruct (isName x) eqn:Hname.
- rewrite (normalizeStep_name true acc x Hname). cbn [rev].
  now rewrite fold_left_app.
- destruct ((x =? "") || (x =? ".")) eqn:E.
  + now rewrite !normalizeStep_skip.
  + assert (x = "..") as ->.
    { unfold isName in Hname. rewrite E in Hname. simpl in Hname.
      apply negb_false_iff in Hname. now apply String.eqb_eq. }
    rewrite (normalizeStep_dotdot true acc).
    destruct acc as [|last rest]; [reflexivity|].
    destruct (String.eqb_spec last "..") as [->|Hlast].
    * cbn [rev]. now rewrite !fold_left_app.
    * inversion Hacc as [|? ? [Hl|Hl] _]; subst; [congruence|].
      cbn [rev]. rewrite fold_left_app. cbn [fold_left].
      rewrite (normalizeStep_name b _ last Hl), normalizeStep_dotdot.
      apply String.eqb_neq in Hlast. now rewrite Hlast.
Qed.

(** Resolving segments against a directory gives the same whether the
    segments were normalised on their own first or not. *)
Lemma normalize_then_resolve (b : bool) (acc0 : list string)
      (segs : list string) : forall acc,
    dotsOrNames acc ->
    fold_left (normalizeStep b) segs
      (fold_left (normalizeStep b) (rev acc) acc0)
    = fold_left (normalizeStep b)
        (rev (fold_left (normalizeStep true) segs acc)) acc0.
Proof.
induction segs as [|x segs IH]; intros acc Hacc; [reflexivity|].
cbn [fold_left].
rewrite <- (IH (normalizeStep true acc x))
  by now apply normalizeStep_dotsOrNames.
f_equal. now apply normalizeStep_commutes.
Qed.

Lemma resolve_segments (b : bool) (acc0 : list string) (p : string) :
  fold_left (normalizeStep b) (split p) acc0
  = fold_left (normalizeStep b) (normalizeString true (split p)) acc0.
Proof.
unfold normalizeString.
exact (normalize_then_resolve b acc0 (split p) [] (Forall_nil _)).
Qed.

(** The absolute path of [p] in the working directory [cwd], as
    segments. *)
Let rooted (cwd p : string) : list string :=
  normalizeString false
    (split (if p =? "" then cwd ++ "/"
            else if isAbsolute p then p ++ "/"
            else cwd ++ "/" ++ p ++ "/")).

Lemma resolve_rooted (cwd p : string) :
  isAbsolute cwd = true ->
  resolve cwd [p] = "/" ++ String.concat "/" (rooted cwd p).
Proof.
intros Hcwd. unfold resolve, rooted. cbn [rev app resolveLoop].
assert (Hne : (cwd =? "") = false) by now destruct cwd.
destruct (p =? ""); [|destruct (isAbsolute p)];
  cbn [resolveLoop]; rewrite ?Hne, ?Hcwd; reflexivity.
Qed.

Lemma rooted_shape (cwd p : string) :
  normalForm false (rooted cwd p) /\ Forall noSlash (rooted cwd p).
Proof.
split; [apply normalizeString_shape|].
apply normalForm_no_slash, split_segments_no_slash.
Qed.

(** Reading back an absolute path written from normalised segments. *)
Lemma segments_rooted (l : list string) :
  normalForm false l -> Forall noSlash l ->
  isAbsolute ("/" ++ String.concat "/" l) = true
  /\ segments ("/" ++ String.concat "/" l) = l.
Proof.
intros Hnf Hs. destruct l as [|x l]; [now split|].
apply (segments_written true (x :: l)); [discriminate | exact Hnf | exact Hs].
Qed.

Variable PDF_DIR : string.
Variable localeCompare : string -> string -> Z.
Variable fs : FileSystem.
Variable cwd : string.

(** X15.  [GET /api/pdfs] always answers 200 and never throws, logs or
    sends: its [files] are the scan of the disk (empty when the
    directory cannot be listed) and its [watchedDir] is
    [resolve(PDF_DIR)]. *)
Theorem list_route_always_answers (w : World) :
  exists snap,
    listPdfs PDF_DIR localeCompare fs = Ok snap
    /\ apiPdfs PDF_DIR localeCompare fs cwd w
       = (Ok {| listStatus := 200; listFiles := snap;
                watchedDir := resolve cwd [PDF_DIR] |}, w)
    /\ ((exists e, readdirSync fs PDF_DIR = Throw e) -> snap = []).
Proof.
destruct (listPdfs_returns PDF_DIR localeCompare fs) as [snap Hscan].
exists snap. split; [exact Hscan|]. split.
- unfold apiPdfs, bindM, liftE, retM. now rewrite Hscan.
- intros [e Hdir]. unfold listPdfs, listPdfs_try in Hscan.
  rewrite Hdir in Hscan. simpl in Hscan. congruence.
Qed.

(** X16.  In a process whose working directory is absolute, the
    [watchedDir] of the list route is an absolute path without [.],
    [..] or empty segments: a [/] followed by names joined with [/],
    and resolving it again gives it back. *)
Theorem watched_dir_resolved (p : string) :
  isAbsolute cwd = true ->
  isAbsolute (resolve cwd [p]) = true
  /\ Forall (fun seg => isName seg = true) (segments (resolve cwd [p]))
  /\ resolve cwd [p] = "/" ++ String.concat "/" (segments (resolve cwd [p]))
  /\ resolve cwd [resolve cwd [p]] = resolve cwd [p].
Proof.
intros Hcwd.
rewrite (resolve_rooted cwd p Hcwd).
destruct (rooted_shape cwd p) as [Hnf Hs].
destruct (segments_rooted _ Hnf Hs) as [Habs Hsegs].
set (W := "/" ++ String.concat "/" (rooted cwd p)) in *.
split; [exact Habs|]. split; [|split].
- rewrite Hsegs. destruct Hnf as (k & names & Hl & Hnames & Hk).
  rewrite (Hk eq_refl) in Hl. simpl in Hl. now rewrite Hl.
- now rewrite Hsegs.
- rewrite (resolve_rooted cwd W Hcwd). unfold W at 2. f_equal. f_equal.
  unfold rooted at 1.
  assert (HW : (W =? "") = false) by reflexivity.
  rewrite HW, Habs, split_trailing_slash, normalizeString_trailing.
  unfold segments in Hsegs. now rewrite Habs in Hsegs.
Qed.

(** X17.  In a process whose working directory is absolute, the path
    the file route opens for an accepted name, once resolved, is the
    [watchedDir] of the list route followed by the name:
    [resolve(join(PDF_DIR, name)) = join(resolve(PDF_DIR), name)]. *)
Theorem served_path_under_watched_dir (name : string) :
  isAbsolute cwd = true ->
  invalidName name = false ->
  resolve cwd [join [PDF_DIR; name]] = join [resolve cwd [PDF_DIR]; name].
Proof.
intros Hcwd Hok.
destruct (accepted_name name Hok) as (_ & Hslash & Hname).
(* the right-hand side *)
rewrite (join_accepted (resolve cwd [PDF_DIR]) name Hok).
rewrite (resolve_rooted cwd PDF_DIR Hcwd).
destruct (rooted_shape cwd PDF_DIR) as [Hnf Hs].
destruct (segments_rooted _ Hnf Hs) as [-> ->].
(* the left-hand side *)
destruct (segments_shape PDF_DIR) as [Hnf' Hs'].
assert (Hl : Forall noSlash (segments PDF_DIR ++ [name]))
  by (apply Forall_app; split; [exact Hs' | now constructor]).
assert (Hne : (segments PDF_DIR ++ [name])%list <> [])
  by now destruct (segments PDF_DIR).
destruct (segments_written (isAbsolute PDF_DIR) (segments PDF_DIR ++ [name])
            Hne (normalForm_snoc _ _ name Hnf' Hname) Hl) as [Habs Hsegs].
rewrite <- (join_accepted PDF_DIR name Hok) in Habs, Hsegs.
rewrite (resolve_rooted cwd (join [PDF_DIR; name]) Hcwd).
f_equal. f_equal.
assert (HJ : (join [PDF_DIR; name] =? "") = false).
{ apply String.eqb_neq. rewrite (join_accepted PDF_DIR name Hok).
  destruct (isAbsolute PDF_DIR); [discriminate|].
  apply concat_snoc_not_empty. now destruct (isName_inv name Hname). }
unfold rooted. rewrite HJ, Habs.
destruct (isAbsolute PDF_DIR) eqn:Hroot.
- (* an absolute root *)
  assert (HP : (PDF_DIR =? "") = false) by now destruct PDF_DIR.
  rewrite HP, !split_trailing_slash, !normalizeString_trailing.
  unfold segments in Hsegs. rewrite Habs in Hsegs. simpl negb in Hsegs.
  rewrite Hsegs. unfold segments. now rewrite Hroot.
- (* a relative root: both sides start from the working directory *)
  assert (Hsplit : split (join [PDF_DIR; name])
                   = (segments PDF_DIR ++ [name])%list).
  { rewrite (join_accepted PDF_DIR name Hok), Hroot.
    now apply split_concat. }
  change (cwd ++ "/" ++ join [PDF_DIR; name] ++ "/")
    with (cwd ++ String "/" (join [PDF_DIR; name] ++ "/")).
  rewrite split_app_slash, split_trailing_slash, Hsplit.
  rewrite app_assoc, normalizeString_trailing.
  rewrite app_assoc, normalizeString_snoc by assumption.
  f_equal.
  unfold normalizeString. f_equal. rewrite fold_left_app.
  destruct (String.eqb_spec PDF_DIR "") as [->|HP].
  + rewrite split_trailing_slash, fold_left_app. reflexivity.
  + change (cwd ++ "/" ++ PDF_DIR ++ "/")
      with (cwd ++ String "/" (PDF_DIR ++ "/")).
    rewrite split_app_slash, split_trailing_slash, app_assoc.
    rewrite fold_left_app. cbn [fold_left].
    rewrite normalizeStep_skip by reflexivity.
    rewrite fold_left_app.
    unfold segments. rewrite Hroot. simpl negb.
    symmetry. apply resolve_segments.
Qed.

End ResolveFacts.

Example resolve_relative : resolve "/home/u/app" ["./pdfs"] = "/home/u/app/pdfs".
Proof. reflexivity. Qed.

Example resolve_absolute : resolve "/home/u" ["/srv//docs/"] = "/srv/docs".
Proof. reflexivity. Qed.

Example resolve_up : resolve "/home/u" ["../x/./y"] = "/home/x/y".
Proof. reflexivity. Qed.

Example resolve_above_root : resolve "/" ["../.."] = "/".
Proof. reflexivity. Qed.

(* ================================================================== *)
(** * The viewer *)
(* ================================================================== *)

Section ViewerFacts.

Variable closureSelected : option string.

Lemma stillExists_In (files : list PdfFile) (current : option string) :
  stillExists files current = true ->
  exists c, current = Some c /\ In c (map name files).
Proof.
destruct current as [c|]; simpl; [|discriminate]. intros H.
apply existsb_exists in H. destruct H as (f & Hf & Heq).
apply String.eqb_eq in Heq. subst c.
exists (name f). split; [reflexivity | now apply in_map].
Qed.

(** The view after a list message. *)
Lemma onmessage_list (files : list PdfFile) (v : View) :
  let v' := onmessage closureSelected (PdfsUpdated files) v in
  pdfs v' = files
  /\ (selectedPdf v' = None <-> files = [])
  /\ (forall n, selectedPdf v' = Some n -> In n (map name files)).
Proof.
cbn [onmessage pdfs selectedPdf].
destruct (stillExists files (selectedPdf v)) eqn:E.
- destruct (stillExists_In _ _ E) as (c & Hc & Hin). rewrite Hc.
  repeat split; try discriminate; try congruence;
    try (intros ->; contradiction); try (intros n [= <-]; exact Hin).
- destruct files as [|f files]; simpl;
    repeat split; try discriminate; try congruence;
    try (intros n [= <-]; now left).
Qed.

Lemma onmessage_changed (n : string) (v : View) :
  pdfs (onmessage closureSelected (PdfChanged n) v) = pdfs v
  /\ selectedPdf (onmessage closureSelected (PdfChanged n) v) = selectedPdf v.
Proof.
cbn [onmessage].
destruct (match closureSelected with Some s => n =? s | None => false end);
  now split.
Qed.

(** X18.  After a [pdfs-updated] message the viewer's tabs are the
    files of the message, and its selection is a name among them, or
    none exactly when there are none: a selection that is still listed
    is kept, otherwise the first file is selected. *)
Theorem selection_valid_after_list (files : list PdfFile) (v : View) :
  let v' := onmessage closureSelected (PdfsUpdated files) v in
  pdfs v' = files
  /\ (selectedPdf v' = None <-> files = [])
  /\ (forall n, selectedPdf v' = Some n -> In n (map name files))
  /\ (stillExists files (selectedPdf v) = true ->
      selectedPdf v' = selectedPdf v)
  /\ (stillExists files (selectedPdf v) = false ->
      selectedPdf v' = option_map name (hd_error files)).
Proof.
destruct (onmessage_list files v) as (Hpdfs & Hnone & Hsome).
split; [exact Hpdfs|]. split; [exact Hnone|]. split; [exact Hsome|].
cbn [onmessage selectedPdf].
split; intros E; rewrite E; [reflexivity|].
now destruct files.
Qed.

Variable PDF_DIR : string.
Variable localeCompare : string -> string -> Z.
Variable fs : FileSystem.
Variable net : Network.

(** X19.  Server and viewer together: after the reaction to a
    notification for a [.pdf] name (every [send] returning), a
    registered client that handles what it was sent shows exactly the
    scan of the disk, and its selection is a name of that scan, or none
    exactly when the scan is empty. *)
Theorem view_after_reaction (event : WatchEventType) (filename : string)
        (w : World) (ws : WebSocket) (v : View) :
  endsWith filename ".pdf" = true ->
  NoDup (clients w) ->
  (forall x msg, In x (clients w) -> exists st, net x msg = Ok st) ->
  In ws (clients w) ->
  exists snap new,
    listPdfs PDF_DIR localeCompare fs = Ok snap
    /\ onWatch PDF_DIR localeCompare fs net event (Some filename) w
       = (Ok tt, {| clients := clients w; output := output w ++ new |})
    /\ pdfs (onmessages closureSelected (sentTo ws new) v) = snap
    /\ (selectedPdf (onmessages closureSelected (sentTo ws new) v) = None
        <-> snap = [])
    /\ (forall n,
           selectedPdf (onmessages closureSelected (sentTo ws new) v) = Some n
           -> In n (map name snap)).
Proof.
intros Hpdf Hnd Hret Hws.
destruct (listPdfs_returns PDF_DIR localeCompare fs) as [snap Hscan].
exists snap. eexists. split; [exact Hscan|]. split.
- apply (onWatch_output PDF_DIR localeCompare fs net event filename w snap);
    assumption.
- rewrite (sentTo_reaction net _ _ _ _ ws Hnd Hws).
  unfold onmessages. cbn [fold_left].
  destruct (onmessage_changed filename
              (onmessage closureSelected (PdfsUpdated snap) v)) as [-> ->].
  destruct (onmessage_list snap v) as (H1 & H2 & H3).
  split; [exact H1|]. split; [exact H2 | exact H3].
Qed.

End ViewerFacts.

(* ================================================================== *)
(** * The properties above on the sample environments *)
(* ================================================================== *)

(** [send] throws on client [2]: client [1] gets the list, nobody gets
    the name. *)
Lemma reaction_on_any_network_witness :
  exists snap r pre1 post1 pre2 post2,
    listPdfs "./pdfs" compareCodeUnits disk_empty_dir = Ok snap
    /\ onWatch "./pdfs" compareCodeUnits disk_empty_dir (net_throwing 2) change
         (Some "a.pdf") two_clients
       = (r, {| clients := clients two_clients;
                output := output two_clients
                  ++ ConsoleLog ("[watch] " ++ eventName change ++ ": "
                                 ++ "a.pdf")
                  :: map (sent (net_throwing 2) (PdfsUpdated snap)) pre1
                  ++ map (sent (net_throwing 2) (PdfChanged "a.pdf")) pre2 |})
    /\ clients two_clients = (pre1 ++ post1)%list
    /\ clients two_clients = (pre2 ++ post2)%list
    /\ (forall x, In x pre1 ->
                  exists st, net_throwing 2 x (PdfsUpdated snap) = Ok st)
    /\ (forall x, In x pre2 ->
                  exists st, net_throwing 2 x (PdfChanged "a.pdf") = Ok st)
    /\ ((post1 = [] /\ post2 = [] /\ r = Ok tt)
        \/ (post1 = []
            /\ exists bad rest e,
                 post2 = bad :: rest
                 /\ net_throwing 2 bad (PdfChanged "a.pdf") = Throw e
                 /\ r = Throw e)
        \/ (pre2 = []
            /\ exists bad rest e,
                 post1 = bad :: rest
                 /\ net_throwing 2 bad (PdfsUpdated snap) = Throw e
                 /\ r = Throw e)).
Proof.
apply (reaction_on_any_network "./pdfs" compareCodeUnits disk_empty_dir
         (net_throwing 2) change "a.pdf" two_clients).
reflexivity.
Defined.

Example reaction_interrupted :
  onWatch "./pdfs" compareCodeUnits disk_empty_dir (net_throwing 2) change
    (Some "a.pdf") two_clients
  = (Throw "send failed",
     {| clients := [1; 2];
        output := [ ConsoleLog "[watch] change: a.pdf";
                    WsSend 1 (PdfsUpdated []) 1 ] |}).
Proof. reflexivity. Qed.

(** Every [send] returns, and so does the reaction. *)
Lemma reaction_returns_iff_sends_return_witness :
  fst (onWatch "./pdfs" compareCodeUnits disk_empty_dir net_ok change
         (Some "a.pdf") two_clients) = Ok tt
  <-> (forall ws, In ws (clients two_clients) ->
         (exists st, net_ok ws (PdfsUpdated []) = Ok st)
         /\ (exists st, net_ok ws (PdfChanged "a.pdf") = Ok st)).
Proof.
apply (reaction_returns_iff_sends_return "./pdfs" compareCodeUnits
         disk_empty_dir net_ok change "a.pdf" two_clients []).
- reflexivity.
- reflexivity.
Defined.

(** Connection [3] is not registered. *)
Lemma reaction_skips_unregistered_witness :
  sentTo 3 (output (snd (onWatch "./pdfs" compareCodeUnits disk_two_pdfs net_ok
                           change (Some "a.pdf") two_clients)))
  = sentTo 3 (output two_clients).
Proof.
apply (reaction_skips_unregistered "./pdfs" compareCodeUnits disk_two_pdfs
         net_ok change (Some "a.pdf") two_clients 3).
simpl. intuition discriminate.
Defined.

(** No [./pdfs]: the clients are told of an empty list. *)
Lemma reaction_broadcasts_empty_list_on_scan_failure_witness :
  exists new,
    onWatch "./pdfs" compareCodeUnits disk_missing_dir net_ok rename
      (Some "a.pdf") two_clients
    = (Ok tt, {| clients := clients two_clients;
                 output := output two_clients ++ new |})
    /\ forall ws, In ws (clients two_clients) ->
                  sentTo ws new = [PdfsUpdated []; PdfChanged "a.pdf"].
Proof.
apply (reaction_broadcasts_empty_list_on_scan_failure
         "./pdfs" compareCodeUnits disk_missing_dir net_ok rename "a.pdf"
         two_clients).
- left. exists "ENOENT". reflexivity.
- reflexivity.
- repeat constructor; simpl; intuition discriminate.
- intros ws msg _. exists 1%Z. reflexivity.
Defined.

(** Client [1] closes before [b.pdf] changes. *)
Lemma closed_client_not_notified_witness :
  exists snap new,
    listPdfs "./pdfs" compareCodeUnits disk_two_pdfs = Ok snap
    /\ bindM (ws_close 1)
         (fun _ => onWatch "./pdfs" compareCodeUnits disk_two_pdfs net_ok
                     change (Some "b.pdf")) two_clients
       = (Ok tt, {| clients := set_delete 1 (clients two_clients);
                    output := output two_clients ++ new |})
    /\ sentTo 1 new = []
    /\ forall x, In x (clients two_clients) -> x <> 1 ->
                 sentTo x new = [PdfsUpdated snap; PdfChanged "b.pdf"].
Proof.
apply (closed_client_not_notified "./pdfs" compareCodeUnits disk_two_pdfs
         net_ok change "b.pdf" two_clients 1).
- reflexivity.
- repeat constructor; simpl; intuition discriminate.
- intros ws msg _. exists 1%Z. reflexivity.
Defined.

(** [a.pdf] is listed, and served from the listed path. *)
Lemma listed_entry_served_witness :
  exists resp w',
    apiPdf "./pdfs" decode_plain disk_two_pdfs "a.pdf" two_clients
    = (Ok resp, w')
    /\ status resp = 200%Z.
Proof.
destruct (listed_entry_served "./pdfs" compareCodeUnits decode_plain
            disk_two_pdfs
            [ {| name := "a.pdf"; path := "pdfs/a.pdf";
                 modified := mtimeMs (stats_at 2000) |};
              {| name := "b.pdf"; path := "pdfs/b.pdf";
                 modified := mtimeMs (stats_at 1000) |} ]
            {| name := "a.pdf"; path := "pdfs/a.pdf";
               modified := mtimeMs (stats_at 2000) |}
            two_clients) as [_ Hname].
- reflexivity.
- simpl. auto.
- destruct (Hname eq_refl) as (_ & H200 & _).
  apply H200. repeat split; reflexivity.
Defined.

(** [./pdfs] in [/home/u/app]. *)
Lemma watched_dir_resolved_witness :
  Path.isAbsolute (resolve "/home/u/app" ["./pdfs"]) = true
  /\ Forall (fun seg => Path.isName seg = true)
            (Path.segments (resolve "/home/u/app" ["./pdfs"]))
  /\ resolve "/home/u/app" ["./pdfs"]
     = "/" ++ String.concat "/"
                (Path.segments (resolve "/home/u/app" ["./pdfs"]))
  /\ resolve "/home/u/app" [resolve "/home/u/app" ["./pdfs"]]
     = resolve "/home/u/app" ["./pdfs"].
Proof.
apply (watched_dir_resolved "/home/u/app" "./pdfs").
reflexivity.
Defined.

(** [report.pdf] under [../docs/./pdfs] in [/home/u/app]. *)
Lemma served_path_under_watched_dir_witness :
  resolve "/home/u/app" [Path.join ["../docs/./pdfs"; "report.pdf"]]
  = Path.join [resolve "/home/u/app" ["../docs/./pdfs"]; "report.pdf"].
Proof.
apply (served_path_under_watched_dir "../docs/./pdfs" "/home/u/app"
         "report.pdf").
- reflexivity.
- reflexivity.
Defined.

Example served_path_resolved :
  resolve "/home/u/app" [Path.join ["../docs/./pdfs"; "report.pdf"]]
  = "/home/u/docs/pdfs/report.pdf".
Proof. reflexivity. Qed.

(** A viewer that had [gone.pdf] selected, after [gone.pdf] is
    deleted. *)
Lemma view_after_reaction_witness :
  exists snap new,
    listPdfs "./pdfs" compareCodeUnits disk_after_deletion = Ok snap
    /\ onWatch "./pdfs" compareCodeUnits disk_after_deletion net_ok rename
         (Some "gone.pdf") two_clients
       = (Ok tt, {| clients := clients two_clients;
                    output := output two_clients ++ new |})
    /\ pdfs (onmessages None (sentTo 1 new)
               {| pdfs := []; selectedPdf := Some "gone.pdf";
                  viewConnected := true; viewWatchedDir := "/home/u/app/pdfs";
                  refreshKey := 0 |}) = snap
    /\ (selectedPdf (onmessages None (sentTo 1 new)
                       {| pdfs := []; selectedPdf := Some "gone.pdf";
                          viewConnected := true;
                          viewWatchedDir := "/home/u/app/pdfs";
                          refreshKey := 0 |}) = None
        <-> snap = [])
    /\ (forall n,
           selectedPdf (onmessages None (sentTo 1 new)
                          {| pdfs := []; selectedPdf := Some "gone.pdf";
                             viewConnected := true;
                             viewWatchedDir := "/home/u/app/pdfs";
                             refreshKey := 0 |}) = Some n
           -> In n (map name snap)).
Proof.
apply (view_after_reaction None "./pdfs" compareCodeUnits disk_after_deletion
         net_ok rename "gone.pdf" two_clients 1).
- reflexivity.
- repeat constructor; simpl; intuition discriminate.
- intros ws msg _. exists 1%Z. reflexivity.
- simpl. auto.
Defined.

Example viewer_moves_selection :
  selectedPdf
    (onmessage None
       (PdfsUpdated [ {| name := "a.pdf"; path := "pdfs/a.pdf";
                         modified := mtimeMs (stats_at 2000) |} ])
       {| pdfs := []; selectedPdf := Some "gone.pdf"; viewConnected := true;
          viewWatchedDir := "/home/u/app/pdfs"; refreshKey := 0 |})
  = Some "a.pdf".
Proof. reflexivity. Qed.

(* ================================================================== *)
(** * Reactions in sequence *)
(* ================================================================== *)

Section EngineSequences.

Variable PDF_DIR : string.
Variable localeCompare : string -> string -> Z.
Variable fs : FileSystem.
Variable net : Network.

(** X20.  Notifications are not coalesced: two notifications for [.pdf]
    names, one after the other on the same disk, make the server send
    every client the list and a name twice over, in that order. *)
Theorem reactions_not_coalesced (event1 event2 : WatchEventType)
        (filename1 filename2 : string) (w : World) :
  endsWith filename1 ".pdf" = true ->
  endsWith filename2 ".pdf" = true ->
  NoDup (clients w) ->
  (forall x msg, In x (clients w) -> exists st, net x msg = Ok st) ->
  exists snap new,
    listPdfs PDF_DIR localeCompare fs = Ok snap
    /\ bindM (onWatch PDF_DIR localeCompare fs net event1 (Some filename1))
         (fun _ => onWatch PDF_DIR localeCompare fs net event2 (Some filename2))
         w
       = (Ok tt, {| clients := clients w; output := output w ++ new |})
    /\ forall ws, In ws (clients w) ->
         sentTo ws new
         = [PdfsUpdated snap; PdfChanged filename1;
            PdfsUpdated snap; PdfChanged filename2].
Proof.
intros Hpdf1 Hpdf2 Hnd Hret.
destruct (listPdfs_returns PDF_DIR localeCompare fs) as [snap Hscan].
exists snap. eexists. split; [exact Hscan|]. split.
- unfold bindM.
  rewrite (onWatch_output PDF_DIR localeCompare fs net event1 filename1 w snap)
    by assumption.
  rewrite (onWatch_output PDF_DIR localeCompare fs net event2 filename2 _ snap)
    by assumption.
  cbn [clients output]. rewrite <- app_assoc. reflexivity.
- intros ws Hws. rewrite sentTo_app.
  now rewrite !(sentTo_reaction net _ _ _ _ ws Hnd Hws).
Qed.

(** X21.  A connection that opens is served by the next reaction: after
    [open] for a new connection, a notification for a [.pdf] name sends
    it the list and then the name, like every client registered
    before. *)
Theorem opened_client_notified (event : WatchEventType)
        (filename : string) (w : World) (ws : WebSocket) :
  endsWith filename ".pdf" = true ->
  NoDup (clients w) ->
  (forall x msg, exists st, net x msg = Ok st) ->
  exists snap new,
    listPdfs PDF_DIR localeCompare fs = Ok snap
    /\ bindM (ws_open ws)
         (fun _ => onWatch PDF_DIR localeCompare fs net event (Some filename)) w
       = (Ok tt, {| clients := set_add ws (clients w);
                    output := output w ++ new |})
    /\ forall x, x = ws \/ In x (clients w) ->
                 sentTo x new = [PdfsUpdated snap; PdfChanged filename].
Proof.
intros Hpdf Hnd Hret.
destruct (listPdfs_returns PDF_DIR localeCompare fs) as [snap Hscan].
exists snap. eexists. split; [exact Hscan|]. split.
- unfold bindM, ws_open.
  rewrite (onWatch_output PDF_DIR localeCompare fs net event filename _ snap);
    try assumption; [reflexivity|].
  intros x msg _. apply Hret.
- intros x Hx. apply sentTo_reaction.
  + now apply set_add_NoDup.
  + now apply set_add_In.
Qed.

End EngineSequences.

(** Two changes in a row, two clients. *)
Lemma reactions_not_coalesced_witness :
  exists snap new,
    listPdfs "./pdfs" compareCodeUnits disk_two_pdfs = Ok snap
    /\ bindM (onWatch "./pdfs" compareCodeUnits disk_two_pdfs net_ok rename
                (Some "a.pdf"))
         (fun _ => onWatch "./pdfs" compareCodeUnits disk_two_pdfs net_ok change
                     (Some "a.pdf"))
         two_clients
       = (Ok tt, {| clients := clients two_clients;
                    output := output two_clients ++ new |})
    /\ forall ws, In ws (clients two_clients) ->
         sentTo ws new
         = [PdfsUpdated snap; PdfChanged "a.pdf";
            PdfsUpdated snap; PdfChanged "a.pdf"].
Proof.
apply (reactions_not_coalesced "./pdfs" compareCodeUnits disk_two_pdfs net_ok
         rename change "a.pdf" "a.pdf" two_clients).
- reflexivity.
- reflexivity.
- repeat constructor; simpl; intuition discriminate.
- intros ws msg _. exists 1%Z. reflexivity.
Defined.

(** Connection [3] joins clients [1] and [2]. *)
Lemma opened_client_notified_witness :
  exists snap new,
    listPdfs "./pdfs" compareCodeUnits disk_two_pdfs = Ok snap
    /\ bindM (ws_open 3)
         (fun _ => onWatch "./pdfs" compareCodeUnits disk_two_pdfs net_ok
                     change (Some "b.pdf")) two_clients
       = (Ok tt, {| clients := set_add 3 (clients two_clients);
                    output := output two_clients ++ new |})
    /\ forall x, x = 3 \/ In x (clients two_clients) ->
                 sentTo x new = [PdfsUpdated snap; PdfChanged "b.pdf"].
Proof.
apply (opened_client_notified "./pdfs" compareCodeUnits disk_two_pdfs net_ok
         change "b.pdf" two_clients 3).
- reflexivity.
- repeat constructor; simpl; intuition discriminate.
- intros ws msg. exists 1%Z. reflexivity.
Defined.
